(** * Unified Social Credit Code validator: a shallow embedding of
      [validate_gui.py] and the properties its specification states.

    The program's engine is four module-level functions
    ([is_credit_code_simple], [get_parity_bit], [is_credit_code],
    [validate_credit_codes]) and one method that only reads its argument
    ([CreditCodeValidatorApp.get_error_reason]).  They are embedded below as
    Rocq functions over Python strings, read as lists of code points. *)

From Stdlib Require Import ZArith Ascii String Lia.
From stdpp Require Import gmap strings list fin_maps.
Local Open Scope Z_scope.

(** ** Python strings *)

(** A Python [str] is a sequence of Unicode code points. *)
Abbreviation pystr := (list Z).

Definition ord (a : ascii) : Z := Z.of_N (N_of_ascii a).

(** The code points of an ASCII literal. *)
Definition str (s : string) : pystr := ord <$> list_ascii_of_string s.

(** [seq[i]] of Python: a negative index counts from the end, an index out
    of range raises [IndexError] ([None] here). *)
Definition getitem {A} (l : list A) (i : Z) : option A :=
  if 0 <=? i then l !! Z.to_nat i
  else if 0 <=? Z.of_nat (length l) + i then l !! Z.to_nat (Z.of_nat (length l) + i)
  else None.

Definition in_range (lo hi c : Z) : bool := (lo <=? c) && (c <=? hi).

(** [str.isspace] of one character, which is also what [\s] matches in a
    [str] pattern and what [str.strip()] removes. *)
Definition is_space (c : Z) : bool :=
  in_range 9 13 c || in_range 28 32 c || (c =? 133) || (c =? 160)
  || (c =? 5760) || in_range 8192 8202 c || in_range 8232 8233 c
  || (c =? 8239) || (c =? 8287) || (c =? 12288).

(** The line boundaries of [str.splitlines]. *)
Definition is_linebreak (c : Z) : bool :=
  in_range 10 13 c || in_range 28 30 c || (c =? 133) || in_range 8232 8233 c.

(** The part of the Unicode character database the program consults through
    [str.upper] and the regex class [\d].  Only what holds in every version
    of the database is fixed: the ASCII block, and the full-width digits
    U+FF10..U+FF19, which are decimal digits. *)
Record Unicode := {
  upper_char : Z → pystr;
  is_decimal : Z → bool;
  upper_ascii : ∀ c, 0 ≤ c < 128 →
    upper_char c = [if in_range 97 122 c then c - 32 else c];
  decimal_ascii : ∀ c, 0 ≤ c < 128 → is_decimal c = in_range 48 57 c;
  decimal_fullwidth : ∀ c, 65296 ≤ c ≤ 65305 → is_decimal c = true
}.

(** ** A matcher for the regular expressions the program uses *)

(** [CREDIT_CODE_PATTERN] is a sequence of counted atoms between [^] and
    [$]; an atom is a bracketed class of ranges or [\d]. *)
Inductive atom :=
  | Class (ranges : list (Z * Z))
  | Digit.

Definition regex := list (atom * nat).

Definition rng (a b : ascii) : Z * Z := (ord a, ord b).
Definition one (a : ascii) : Z * Z := (ord a, ord a).

Definition in_class (ranges : list (Z * Z)) (c : Z) : bool :=
  existsb (λ r, in_range r.1 r.2 c) ranges.

Section Engine.
Variable U : Unicode.

Definition atom_matches (a : atom) (c : Z) : bool :=
  match a with
  | Class ranges => in_class ranges c
  | Digit => is_decimal U c
  end.

(** [a{n}]: the rest of the subject after [n] characters matching [a]. *)
Fixpoint match_rep (a : atom) (n : nat) (s : pystr) : option pystr :=
  match n with
  | O => Some s
  | S n' =>
      match s with
      | c :: s' => if atom_matches a c then match_rep a n' s' else None
      | [] => None
      end
  end.

Fixpoint match_seq (r : regex) (s : pystr) : option pystr :=
  match r with
  | [] => Some s
  | (a, n) :: r' =>
      match match_rep a n s with
      | Some s' => match_seq r' s'
      | None => None
      end
  end.

(** [$] without [re.MULTILINE]: at the end of the subject, or just before
    a newline that ends it. *)
Definition at_dollar (rest : pystr) : bool :=
  match rest with
  | [] => true
  | [c] => c =? 10
  | _ => false
  end.

(** [bool(pattern.match(s))] for a pattern [^r$]. *)
Definition re_match (r : regex) (s : pystr) : bool :=
  match match_seq r s with
  | Some rest => at_dollar rest
  | None => false
  end.

End Engine.

(** ** Constants *)

Definition WEIGHT : list Z :=
  [1; 3; 9; 27; 19; 26; 16; 17; 20; 29; 25; 13; 8; 24; 10; 30; 28].

Definition BASE_CODE : pystr :=
  Eval vm_compute in str "0123456789ABCDEFGHJKLMNPQRTUWXY".

(** [{char: idx for idx, char in enumerate(BASE_CODE)}]: a later entry for
    the same character would replace an earlier one. *)
Definition CODE_INDEX_MAP : gmap Z Z :=
  foldl (λ m p, <[p.2 := p.1]> m) ∅ (imap (λ idx char, (Z.of_nat idx, char)) BASE_CODE).

(** The class [[0-9A-HJ-NPQRTUWXY]]. *)
Definition CODE_CLASS : list (Z * Z) :=
  Eval vm_compute in
    [rng "0" "9"; rng "A" "H"; rng "J" "N"; one "P"; one "Q"; one "R";
     one "T"; one "U"; one "W"; one "X"; one "Y"].

(** [^[0-9A-HJ-NPQRTUWXY]{2}\d{6}[0-9A-HJ-NPQRTUWXY]{10}$] *)
Definition CREDIT_CODE_PATTERN : regex :=
  [(Class CODE_CLASS, 2%nat); (Digit, 6%nat); (Class CODE_CLASS, 10%nat)].

(** ** The validation functions *)

Section Validator.
Variable U : Unicode.

(** [str.upper]: the characters' upper-case mappings, concatenated. *)
Definition upper (s : pystr) : pystr := s ≫= upper_char U.

Definition is_credit_code_simple (credit_code : pystr) : bool :=
  if bool_decide (credit_code = []) || negb (length credit_code =? 18)%nat
  then false
  else re_match U CREDIT_CODE_PATTERN credit_code.

(** The loop of [get_parity_bit] over [i in range(17)], on the first 17
    characters paired with their weights: [None] is the early
    [return -1]. *)
Fixpoint parity_total (chars : pystr) (weights : list Z) (total : Z) : option Z :=
  match chars, weights with
  | char :: chars', w :: weights' =>
      match CODE_INDEX_MAP !! char with
      | None => None
      | Some code_index => parity_total chars' weights' (total + code_index * w)
      end
  | _, _ => Some total
  end.

Definition get_parity_bit (credit_code : pystr) : Z :=
  if (length credit_code <? 17)%nat then -1
  else
    match parity_total (take 17 credit_code) WEIGHT 0 with
    | None => -1
    | Some total =>
        let result := 31 - total `mod` 31 in
        if result =? 31 then 0 else result
    end.

(** [None] stands for an [IndexError] escaping the function. *)
Definition is_credit_code (credit_code : pystr) : option bool :=
  if negb (is_credit_code_simple credit_code) then Some false
  else
    let parity_bit := get_parity_bit credit_code in
    if parity_bit <? 0 then Some false
    else
      last_char ← getitem credit_code 17;
      expected ← getitem BASE_CODE parity_bit;
      Some (bool_decide (upper [last_char] = [expected])).

(** *** Reading the codes out of the input text *)

(** [str.splitlines()]: the lines without their boundaries; a carriage
    return followed by a line feed is one boundary, and a boundary that
    ends the text opens no further line. *)
Fixpoint splitlines (s : pystr) : list pystr :=
  match s with
  | [] => []
  | c :: s' =>
      if is_linebreak c then
        [] :: (if c =? 13
               then match s' with
                    | c' :: s'' => if c' =? 10 then splitlines s'' else splitlines s'
                    | [] => splitlines s'
                    end
               else splitlines s')
      else
        match splitlines s' with
        | line :: lines => (c :: line) :: lines
        | [] => [[c]]
        end
  end.

(** [re.split] on a pattern [[...]+]: the pieces between the maximal runs
    of class characters, the empty pieces at both ends included.
    [in_run] says that the previous character belonged to a run. *)
Fixpoint re_split_plus (cls : Z → bool) (in_run : bool) (s : pystr) : list pystr :=
  match s with
  | [] => [[]]
  | c :: s' =>
      if cls c then
        if in_run then re_split_plus cls true s'
        else [] :: re_split_plus cls true s'
      else
        match re_split_plus cls false s' with
        | piece :: pieces => (c :: piece) :: pieces
        | [] => [[c]]
        end
  end.

(** The class [[,，\s]]. *)
Definition is_separator (c : Z) : bool :=
  (c =? 44) || (c =? 65292) || is_space c.

Fixpoint lstrip (s : pystr) : pystr :=
  match s with
  | c :: s' => if is_space c then lstrip s' else s
  | [] => []
  end.

Definition rstrip (s : pystr) : pystr := reverse (lstrip (reverse s)).

(** [str.strip()] *)
Definition strip (s : pystr) : pystr := rstrip (lstrip s).

(** [[code.strip() for code in re.split(r'[,，\s]+', line) if code.strip()]] *)
Definition line_codes (line : pystr) : list pystr :=
  strip <$> filter (λ code, strip code ≠ []) (re_split_plus is_separator false line).

(** The first loop of [validate_credit_codes]. *)
Definition parse_codes (codes_text : pystr) : list pystr :=
  foldl (λ codes line, codes ++ line_codes line) [] (splitlines codes_text).

(** *** The batch *)

(** The text under the key ["error"] of an empty batch. *)
Inductive message :=
  | NoCodesFound.  (* 没有找到有效的信用代码 *)

(** The dictionary [validate_credit_codes] returns; the key ["total"] is
    absent from the one it returns for an empty batch. *)
Record result := {
  total : option nat;
  valid : list pystr;
  invalid : list pystr;
  error : option message
}.

(** The second loop of [validate_credit_codes]. *)
Fixpoint classify (codes valid_codes invalid_codes : list pystr)
    : option (list pystr * list pystr) :=
  match codes with
  | [] => Some (valid_codes, invalid_codes)
  | code :: codes' =>
      ok ← is_credit_code code;
      if ok : bool then classify codes' (valid_codes ++ [code]) invalid_codes
      else classify codes' valid_codes (invalid_codes ++ [code])
  end.

Definition validate_credit_codes (codes_text : pystr) : option result :=
  let codes := parse_codes codes_text in
  if bool_decide (codes = []) then
    Some {| total := None; valid := []; invalid := []; error := Some NoCodesFound |}
  else
    lists ← classify codes [] [];
    Some {| total := Some (length codes); valid := lists.1; invalid := lists.2;
            error := None |}.

(** *** The reason shown for a rejected code *)

(** The five texts [get_error_reason] can return.  The illegal characters
    are joined from a Python [set], whose order is not fixed. *)
Inductive reason :=
  | WrongLength                      (* 长度不是18位 *)
  | IllegalChars (chars : gset Z)    (* 包含非法字符: followed by the set *)
  | BadFormat                        (* 格式不符合要求 *)
  | WrongParity (expected_char : Z)  (* 校验位错误，应为 followed by the character *)
  | UnknownError.                    (* 未知错误 *)

(** The list [invalid_chars] that [get_error_reason] collects. *)
Definition invalid_chars (code : pystr) : pystr :=
  filter (λ char, char ∉ BASE_CODE) (upper code).

Definition get_error_reason (code : pystr) : option reason :=
  if bool_decide (code = []) || negb (length code =? 18)%nat then Some WrongLength
  else if negb (is_credit_code_simple code) then
    if bool_decide (invalid_chars code ≠ [])
    then Some (IllegalChars (list_to_set (invalid_chars code)))
    else Some BadFormat
  else
    let parity_bit := get_parity_bit code in
    if 0 <=? parity_bit then
      expected_char ← getitem BASE_CODE parity_bit;
      Some (WrongParity expected_char)
    else Some UnknownError.

End Validator.

(** ** The window *)

(** One [insert] of [display_results] into the result pane. *)
Inductive segment :=
  | InvalidHeader                        (* ❌ 以下是无效的信用代码： *)
  | Rule                                 (* fifty signs = and an empty line *)
  | CodeLine (i : nat) (code : pystr)    (* the number, a dot, the code *)
  | ReasonLine (error_reason : reason)   (* 错误原因: and the reason *)
  | AllValidLine.                        (* ✅ 所有信用代码都有效！ *)

(** A Tk text widget holding segments: while its state is [DISABLED] it
    ignores [insert] and [delete]. *)
Record text_widget := {
  content : list segment;
  editable : bool
}.

Definition text_config (state : bool) (w : text_widget) : text_widget :=
  {| content := content w; editable := state |}.

Definition text_delete_all (w : text_widget) : text_widget :=
  if editable w then {| content := []; editable := true |} else w.

Definition text_insert_end (seg : segment) (w : text_widget) : text_widget :=
  if editable w then {| content := content w ++ [seg]; editable := true |} else w.

(** The texts of the statistics label and of the status bar. *)
Inductive stats :=
  | Ready                                  (* 准备就绪 *)
  | Counts (total valid invalid : nat).    (* 总共, 有效, 无效 *)

Inductive status :=
  | NoStatus
  | Validating                  (* 正在验证... *)
  | ValidationFailed            (* 验证失败 *)
  | DoneAllValid                (* 验证完成 - 所有代码都有效！ *)
  | DoneInvalid (n : nat)       (* 验证完成 - 发现 n 个无效代码 *)
  | Cleared.                    (* 已清空 *)

(** The message boxes. *)
Inductive dialog :=
  | Warning                     (* 请输入要验证的信用代码 *)
  | Error (text : message)
  | InfoAllPassed.              (* 所有信用代码都通过了验证！ *)

(** The widgets the methods read and write, and the message boxes shown
    so far, the oldest first. *)
Record app := {
  input_text : pystr;
  output_text : text_widget;
  stats_label : stats;
  status_bar : status;
  validate_btn : bool;
  dialogs : list dialog
}.

Definition with_input (t : pystr) (a : app) : app :=
  {| input_text := t; output_text := output_text a; stats_label := stats_label a;
     status_bar := status_bar a; validate_btn := validate_btn a; dialogs := dialogs a |}.

Definition with_output (w : text_widget) (a : app) : app :=
  {| input_text := input_text a; output_text := w; stats_label := stats_label a;
     status_bar := status_bar a; validate_btn := validate_btn a; dialogs := dialogs a |}.

Definition with_stats (s : stats) (a : app) : app :=
  {| input_text := input_text a; output_text := output_text a; stats_label := s;
     status_bar := status_bar a; validate_btn := validate_btn a; dialogs := dialogs a |}.

Definition with_button (state : bool) (a : app) : app :=
  {| input_text := input_text a; output_text := output_text a;
     stats_label := stats_label a; status_bar := status_bar a;
     validate_btn := state; dialogs := dialogs a |}.

Definition set_status (message : status) (a : app) : app :=
  {| input_text := input_text a; output_text := output_text a;
     stats_label := stats_label a; status_bar := message;
     validate_btn := validate_btn a; dialogs := dialogs a |}.

Definition messagebox (d : dialog) (a : app) : app :=
  {| input_text := input_text a; output_text := output_text a;
     stats_label := stats_label a; status_bar := status_bar a;
     validate_btn := validate_btn a; dialogs := dialogs a ++ [d] |}.

(** The window as [setup_ui] leaves it. *)
Definition setup_ui : app :=
  {| input_text := []; output_text := {| content := []; editable := false |};
     stats_label := Ready; status_bar := NoStatus; validate_btn := true;
     dialogs := [] |}.

Section Window.
Variable U : Unicode.

(** The loop of [display_results] over [enumerate(results['invalid'], 1)],
    from the number [i] on. *)
Fixpoint display_entries (i : nat) (codes : list pystr) (w : text_widget)
    : option text_widget :=
  match codes with
  | [] => Some w
  | code :: codes' =>
      error_reason ← get_error_reason U code;
      display_entries (S i) codes'
        (text_insert_end (ReasonLine error_reason)
           (text_insert_end (CodeLine i code) w))
  end.

Definition display_results (results : result) (a : app) : option app :=
  let w := text_delete_all (text_config true (output_text a)) in
  w' ← (if bool_decide (invalid results ≠ []) then
          display_entries 1 (invalid results)
            (text_insert_end Rule (text_insert_end InvalidHeader w))
        else Some (text_insert_end AllValidLine w));
  Some (with_output (text_config false w') a).

(** [input_text.get("1.0", tk.END)] is the text of the widget and the line
    feed Tk keeps at its end.  [None] stands for an exception. *)
Definition validate_codes (a : app) : option app :=
  let input_content := strip (input_text a ++ [10]) in
  if bool_decide (input_content = []) then Some (messagebox Warning a)
  else
    let a := with_button false (set_status Validating a) in
    results ← validate_credit_codes U input_content;
    let a := with_button true a in
    match error results with
    | Some text => Some (set_status ValidationFailed (messagebox (Error text) a))
    | None =>
        total ← total results;
        let a := with_stats (Counts total (length (valid results))
                                    (length (invalid results))) a in
        a ← display_results results a;
        if (length (invalid results) =? 0)%nat
        then Some (messagebox InfoAllPassed (set_status DoneAllValid a))
        else Some (set_status (DoneInvalid (length (invalid results))) a)
    end.

Definition clear_all (a : app) : app :=
  let a := with_input [] a in
  let a := with_output
             (text_config false (text_delete_all (text_config true (output_text a)))) a in
  let a := with_stats Ready a in
  set_status Cleared a.

End Window.

(** * The vocabulary of the properties *)

(** ** The alphabet and the checksum *)

(** The value of a character: its position in the alphabet. *)
Definition alphabet_value (char v : Z) : Prop :=
  0 ≤ v ∧ BASE_CODE !! Z.to_nat v = Some char.

(** The sum of the values, each times its weight. *)
Definition weighted_sum (values weights : list Z) : Z :=
  foldr Z.add 0 (zip_with Z.mul values weights).

(** The index of the check character for the values of the first 17
    characters: 31 minus the remainder, and 0 in place of 31. *)
Definition parity_index (values : list Z) : Z :=
  let remainder := weighted_sum values WEIGHT `mod` 31 in
  let index := 31 - remainder in
  if index =? 31 then 0 else index.

(** The letters the alphabet leaves out. *)
Definition EXCLUDED : pystr := Eval vm_compute in str "IOSVZ".

(** ** The pattern *)

(** The pattern as the specification words it: positions 2 to 7 hold ASCII
    digits, every other position a character of the class
    [[0-9A-HJ-NPQRTUWXY]]. *)
Definition structural_pattern (code : pystr) : Prop :=
  ∀ (i : nat) c, code !! i = Some c →
    if bool_decide (2 ≤ i ≤ 7)%nat then in_range 48 57 c = true
    else in_class CODE_CLASS c = true.

(** The atoms of a pattern written out, one per character it consumes. *)
Definition expand (r : regex) : list atom := r ≫= (λ p, replicate p.2 p.1).

(** What the pattern asks of the character at position [i]. *)
Definition position_atom (i : nat) : atom :=
  if (2 <=? i)%nat && (i <=? 7)%nat then Digit else Class CODE_CLASS.

(** ** The tokenizer and the batch *)

(** The tokenizer in the specification's words: the text is split on runs
    of separators, each piece is trimmed, and the pieces that are empty
    after trimming are dropped.  Lines play no part in it. *)
Definition tokenize_spec (text : pystr) : list pystr :=
  filter (λ piece, piece ≠ []) (strip <$> re_split_plus is_separator false text).

(** The pieces between any two separators, and the non-empty ones. *)
Fixpoint pieces (s : pystr) : list pystr :=
  match s with
  | [] => [[]]
  | c :: s' =>
      if is_separator c then [] :: pieces s'
      else match pieces s' with
           | piece :: rest => (c :: piece) :: rest
           | [] => [[c]]
           end
  end.

Definition words (s : pystr) : list pystr := filter (λ piece, piece ≠ []) (pieces s).

(** [sep.join(items)] of Python. *)
Fixpoint join (sep : pystr) (items : list pystr) : pystr :=
  match items with
  | [] => []
  | [item] => item
  | item :: items' => item ++ sep ++ join sep items'
  end.

(** The two lists put back together: the flags say, code by code, from
    which list the next code is taken. *)
Fixpoint remerge {A} (flags : list bool) (yes no : list A) : list A :=
  match flags, yes, no with
  | true :: flags', y :: yes', _ => y :: remerge flags' yes' no
  | false :: flags', _, n :: no' => n :: remerge flags' yes no'
  | _, _, _ => []
  end.

(** A code is accepted. *)
Definition accepted (U : Unicode) (code : pystr) : Prop :=
  is_credit_code U code = Some true.

(** ** Particular strings and a particular database *)

(** The window with one code typed in that will be rejected. *)
Definition one_code_window : app :=
  {| input_text := str "x"; output_text := {| content := []; editable := false |};
     stats_label := Ready; status_bar := NoStatus; validate_btn := true;
     dialogs := [] |}.

Definition is_ascii (s : pystr) : bool := forallb (in_range 0 127) s.

(** ASCII characters and full-width digits. *)
Definition is_plain (s : pystr) : bool :=
  forallb (λ c, in_range 0 127 c || in_range 65296 65305 c) s.

(** An 18-character string with the full-width digit one (U+FF11) at
    position 2. *)
Definition fullwidth_code : pystr :=
  Eval vm_compute in str "91" ++ [65297] ++ str "101087802323985".

(** The case mapping and the digits of the smallest database: those of
    ASCII, and the full-width digits. *)
Definition ascii_upper_char (c : Z) : pystr :=
  [if in_range 97 122 c then c - 32 else c].

Definition ascii_is_decimal (c : Z) : bool :=
  in_range 48 57 c || in_range 65296 65305 c.

(** * The properties *)

(** ** A character database *)

Lemma ascii_is_decimal_ascii c :
  0 ≤ c < 128 → ascii_is_decimal c = in_range 48 57 c.
Proof. unfold ascii_is_decimal, in_range. lia. Qed.

Lemma ascii_is_decimal_fullwidth c :
  65296 ≤ c ≤ 65305 → ascii_is_decimal c = true.
Proof. unfold ascii_is_decimal, in_range. lia. Qed.

Definition ascii_db : Unicode := {|
  upper_char := ascii_upper_char;
  is_decimal := ascii_is_decimal;
  upper_ascii := λ c _, eq_refl;
  decimal_ascii := ascii_is_decimal_ascii;
  decimal_fullwidth := ascii_is_decimal_fullwidth
|}.

#[global] Instance accepted_dec U code : Decision (accepted U code).
Proof. unfold accepted. apply _. Defined.

Example is_credit_code_simple_example :
  is_credit_code_simple ascii_db (str "911101087802323985") = true.
Proof. reflexivity. Qed.

Example get_parity_bit_example : get_parity_bit (str "91110108780232398H") = 5.
Proof. reflexivity. Qed.

Example is_credit_code_example :
  is_credit_code ascii_db (str "911101087802323985") = Some true.
Proof. reflexivity. Qed.

(** ** The alphabet and its index map *)

Lemma BASE_CODE_length : length BASE_CODE = 31%nat.
Proof. reflexivity. Qed.

Lemma BASE_CODE_NoDup : NoDup BASE_CODE.
Proof. apply (bool_decide_unpack (NoDup BASE_CODE)). vm_compute. exact I. Qed.

Lemma CODE_INDEX_MAP_pairs :
  CODE_INDEX_MAP = list_to_map (zip BASE_CODE (Z.of_nat <$> seq 0 31)).
Proof. vm_compute. reflexivity. Qed.

Lemma CODE_INDEX_MAP_lookup char v :
  CODE_INDEX_MAP !! char = Some v ↔ alphabet_value char v.
Proof.
  rewrite CODE_INDEX_MAP_pairs. split.
  - intros H. apply elem_of_list_to_map_2 in H. revert H. simpl.
    rewrite !elem_of_cons, elem_of_nil.
    intros H. repeat (destruct H as [H|H]; [inversion H; subst; split; [lia|reflexivity]|]).
    destruct H.
  - intros [Hv H]. apply elem_of_list_to_map_1.
    { simpl. apply BASE_CODE_NoDup. }
    assert (Hlt : (Z.to_nat v < 31)%nat) by (apply lookup_lt_Some in H; exact H).
    replace v with (Z.of_nat (Z.to_nat v)) by lia.
    revert H Hlt. generalize (Z.to_nat v). intros n H Hlt.
    do 31 (destruct n as [|n]; [injection H as <-; vm_compute; set_solver|]).
    simpl in Hlt. lia.
Qed.

Lemma alphabet_value_range char v : alphabet_value char v → 0 ≤ v ≤ 30.
Proof.
  intros [Hv H]. apply lookup_lt_Some in H. rewrite BASE_CODE_length in H. lia.
Qed.

Lemma alphabet_value_elem char v : alphabet_value char v → char ∈ BASE_CODE.
Proof. intros [_ H]. by eapply list_elem_of_lookup_2. Qed.

Lemma alphabet_value_exists char : char ∈ BASE_CODE → ∃ v, alphabet_value char v.
Proof.
  intros H. apply list_elem_of_lookup_1 in H as [i Hi]. exists (Z.of_nat i).
  split; [lia|]. by rewrite Nat2Z.id.
Qed.

Lemma alphabet_value_inj char1 char2 v :
  alphabet_value char1 v → alphabet_value char2 v → char1 = char2.
Proof. intros [_ H1] [_ H2]. congruence. Qed.

Lemma alphabet_value_fun char v1 v2 :
  alphabet_value char v1 → alphabet_value char v2 → v1 = v2.
Proof.
  intros [Hv1 H1] [Hv2 H2].
  pose proof (NoDup_lookup _ _ _ _ BASE_CODE_NoDup H1 H2). lia.
Qed.

Lemma CODE_INDEX_MAP_None char :
  CODE_INDEX_MAP !! char = None ↔ char ∉ BASE_CODE.
Proof.
  split.
  - intros H Hin. apply alphabet_value_exists in Hin as [v Hv].
    apply CODE_INDEX_MAP_lookup in Hv. congruence.
  - intros H. destruct (CODE_INDEX_MAP !! char) as [v|] eqn:E; [|done].
    apply CODE_INDEX_MAP_lookup, alphabet_value_elem in E. done.
Qed.

(** The bracketed class of the pattern holds the alphabet's characters and
    no other. *)
Lemma in_class_alphabet c : in_class CODE_CLASS c = true ↔ c ∈ BASE_CODE.
Proof.
  unfold in_class, CODE_CLASS, BASE_CODE, in_range. simpl.
  rewrite !elem_of_cons, elem_of_nil. lia.
Qed.

Lemma alphabet_ascii c : c ∈ BASE_CODE → 48 ≤ c ≤ 89.
Proof. unfold BASE_CODE. rewrite !elem_of_cons, elem_of_nil. lia. Qed.

(** ** The structural check, position by position *)

Lemma expand_pattern_lookup i a :
  expand CREDIT_CODE_PATTERN !! i = Some a → a = position_atom i.
Proof.
  intros H. do 18 (destruct i as [|i]; [by injection H as <-|]). discriminate H.
Qed.

Section Pattern.
Variable U : Unicode.

Let matches (a : atom) (c : Z) : Prop := atom_matches U a c = true.

Lemma match_rep_Some a n s rest :
  match_rep U a n s = Some rest ↔
  ∃ pre, s = pre ++ rest ∧ Forall2 matches (replicate n a) pre.
Proof.
  revert s. induction n as [|n IH]; intros s; simpl.
  - split.
    + intros [= ->]. exists []. split; [done|constructor].
    + intros (pre & -> & H). by apply Forall2_nil_inv_l in H as ->.
  - destruct s as [|c s].
    + split; [done|]. intros (pre & Hs & H).
      apply Forall2_cons_inv_l in H as (? & ? & _ & _ & ->). discriminate Hs.
    + destruct (atom_matches U a c) eqn:E.
      * rewrite IH. split.
        -- intros (pre & -> & H). exists (c :: pre). split; [done|by constructor].
        -- intros (pre & Hs & H).
           apply Forall2_cons_inv_l in H as (c' & pre' & _ & H & ->).
           injection Hs as <- ->. by exists pre'.
      * split; [done|]. intros (pre & Hs & H).
        apply Forall2_cons_inv_l in H as (c' & pre' & Hc & _ & ->).
        injection Hs as <- _. unfold matches in Hc. congruence.
Qed.

Lemma match_seq_Some r s rest :
  match_seq U r s = Some rest ↔
  ∃ pre, s = pre ++ rest ∧ Forall2 matches (expand r) pre.
Proof.
  revert s. induction r as [|[a n] r IH]; intros s; simpl.
  - split.
    + intros [= ->]. exists []. split; [done|constructor].
    + intros (pre & -> & H). by apply Forall2_nil_inv_l in H as ->.
  - unfold expand. simpl. fold (expand r).
    destruct (match_rep U a n s) as [s'|] eqn:E.
    + apply match_rep_Some in E as (pre1 & -> & H1). rewrite IH. split.
      * intros (pre2 & -> & H2). exists (pre1 ++ pre2).
        split; [by rewrite <-(assoc_L (++))|by apply Forall2_app].
      * intros (pre & Hs & H).
        apply Forall2_app_inv_l in H as (q1 & q2 & Hq1 & Hq2 & ->).
        assert (Hlen : length pre1 = length q1).
        { apply Forall2_length in H1, Hq1. congruence. }
        rewrite <-(assoc_L (++)) in Hs.
        apply app_inj_1 in Hs as [-> ->]; [|done]. by exists q2.
    + split; [done|]. intros (pre & -> & H).
      apply Forall2_app_inv_l in H as (q1 & q2 & Hq1 & Hq2 & ->).
      assert (match_rep U a n ((q1 ++ q2) ++ rest) = Some (q2 ++ rest)) as E'.
      { apply match_rep_Some. exists q1. by rewrite <-(assoc_L (++)). }
      congruence.
Qed.

Lemma is_credit_code_simple_length s :
  is_credit_code_simple U s = true → length s = 18%nat.
Proof.
  unfold is_credit_code_simple.
  destruct (Nat.eqb_spec (length s) 18) as [->|]; [done|].
  by rewrite orb_true_r.
Qed.

Lemma is_credit_code_simple_Forall2 s :
  is_credit_code_simple U s = true ↔
  Forall2 matches (expand CREDIT_CODE_PATTERN) s.
Proof.
  split.
  - intros H. pose proof (is_credit_code_simple_length _ H) as Hlen.
    unfold is_credit_code_simple in H. rewrite Hlen in H.
    destruct s as [|c0 s0] eqn:Es; [done|]. rewrite <-Es in *.
    simpl in H. rewrite bool_decide_eq_false_2 in H by (subst s; done).
    simpl in H. unfold re_match in H.
    destruct (match_seq U CREDIT_CODE_PATTERN s) as [rest|] eqn:E; [|done].
    apply match_seq_Some in E as (pre & Hs & HF).
    pose proof (Forall2_length _ _ _ HF) as Hl. change (18%nat = length pre) in Hl.
    assert (rest = []) as ->.
    { apply (f_equal length) in Hs. rewrite length_app in Hs.
      destruct rest; [done|]. simpl in Hs. lia. }
    rewrite app_nil_r in Hs. by rewrite Hs.
  - intros HF. pose proof (Forall2_length _ _ _ HF) as Hl.
    change (18%nat = length s) in Hl.
    unfold is_credit_code_simple. rewrite <-Hl.
    rewrite bool_decide_eq_false_2 by (intros ->; done). simpl.
    unfold re_match.
    assert (match_seq U CREDIT_CODE_PATTERN s = Some []) as ->; [|done].
    apply match_seq_Some. exists s. by rewrite app_nil_r.
Qed.

Lemma is_credit_code_simple_positions s :
  is_credit_code_simple U s = true ↔
  length s = 18%nat ∧
  ∀ i c, s !! i = Some c → atom_matches U (position_atom i) c = true.
Proof.
  rewrite is_credit_code_simple_Forall2, Forall2_same_length_lookup. split.
  - intros [Hl H]. split; [done|]. intros i c Hc.
    destruct (expand CREDIT_CODE_PATTERN !! i) as [a|] eqn:E.
    + rewrite <-(expand_pattern_lookup _ _ E). by eapply H.
    + apply lookup_ge_None in E. apply lookup_lt_Some in Hc. lia.
  - intros [Hl H]. split; [done|]. intros i a c Ha Hc.
    rewrite (expand_pattern_lookup _ _ Ha). by apply H.
Qed.

End Pattern.

(** ** The checksum as a weighted sum *)

Arguments CODE_INDEX_MAP : simpl never.
Arguments BASE_CODE : simpl never.
Arguments WEIGHT : simpl never.

Lemma parity_total_Some chars weights total t :
  length chars = length weights →
  parity_total chars weights total = Some t ↔
  ∃ values, Forall2 alphabet_value chars values ∧
            t = total + weighted_sum values weights.
Proof.
  revert weights total. induction chars as [|char chars IH]; intros [|w ws] total Hl;
    try discriminate Hl; cbn [parity_total].
  - split.
    + intros [= <-]. exists []. split; [constructor|]. unfold weighted_sum; cbn [zip_with foldr]. lia.
    + intros (vs & H & ->). apply Forall2_nil_inv_l in H as ->.
      unfold weighted_sum; cbn [zip_with foldr]. f_equal. lia.
  - injection Hl as Hl. destruct (CODE_INDEX_MAP !! char) as [v|] eqn:E.
    + apply CODE_INDEX_MAP_lookup in E. rewrite (IH _ _ Hl). split.
      * intros (vs & H & ->). exists (v :: vs). split; [by constructor|].
        unfold weighted_sum; cbn [zip_with foldr]. lia.
      * intros (vs & H & ->).
        apply Forall2_cons_inv_l in H as (v' & vs' & Hv & H & ->).
        rewrite (alphabet_value_fun _ _ _ Hv E). exists vs'. split; [done|].
        unfold weighted_sum; cbn [zip_with foldr]. lia.
    + split; [done|]. intros (vs & H & _).
      apply Forall2_cons_inv_l in H as (v' & vs' & Hv & _ & _).
      apply CODE_INDEX_MAP_lookup in Hv. congruence.
Qed.

Lemma parity_total_None chars weights total :
  length chars = length weights →
  parity_total chars weights total = None ↔ ∃ char, char ∈ chars ∧ char ∉ BASE_CODE.
Proof.
  revert weights total. induction chars as [|char chars IH]; intros [|w ws] total Hl;
    try discriminate Hl; cbn [parity_total].
  - split; [done|]. intros (c & Hc & _). by apply elem_of_nil in Hc.
  - injection Hl as Hl. destruct (CODE_INDEX_MAP !! char) as [v|] eqn:E.
    + rewrite (IH _ _ Hl). apply CODE_INDEX_MAP_lookup, alphabet_value_elem in E.
      split.
      * intros (c & Hc & Hn). exists c. split; [by right|done].
      * intros (c & Hc & Hn). apply elem_of_cons in Hc as [->|Hc]; [done|].
        by exists c.
    + apply CODE_INDEX_MAP_None in E. split; [|done]. intros _.
      exists char. split; [by left|done].
Qed.

Lemma take_17_length (s : pystr) :
  (17 ≤ length s)%nat → length (take 17 s) = length WEIGHT.
Proof. intros H. rewrite length_take. change (length WEIGHT) with 17%nat. lia. Qed.

Lemma parity_index_range values : 0 ≤ parity_index values ≤ 30.
Proof.
  unfold parity_index.
  pose proof (Z.mod_pos_bound (weighted_sum values WEIGHT) 31 ltac:(lia)).
  cbv zeta. destruct (Z.eqb_spec (31 - weighted_sum values WEIGHT `mod` 31) 31); lia.
Qed.

Lemma get_parity_bit_values code values :
  (17 ≤ length code)%nat →
  Forall2 alphabet_value (take 17 code) values →
  get_parity_bit code = parity_index values.
Proof.
  intros Hl HF. unfold get_parity_bit.
  destruct (Nat.ltb_spec (length code) 17) as [?|_]; [lia|].
  assert (parity_total (take 17 code) WEIGHT 0 = Some (weighted_sum values WEIGHT)) as ->.
  { apply parity_total_Some; [by apply take_17_length|]. by exists values. }
  reflexivity.
Qed.

Lemma get_parity_bit_cases code :
  (get_parity_bit code = -1 ∧
     ((length code < 17)%nat ∨ ∃ char, char ∈ take 17 code ∧ char ∉ BASE_CODE))
  ∨ (∃ values, (17 ≤ length code)%nat ∧
               Forall2 alphabet_value (take 17 code) values ∧
               get_parity_bit code = parity_index values).
Proof.
  unfold get_parity_bit.
  destruct (Nat.ltb_spec (length code) 17) as [Hl|Hl]; [left; split; [done|by left]|].
  destruct (parity_total (take 17 code) WEIGHT 0) as [t|] eqn:E.
  - right. apply parity_total_Some in E as (vs & HF & ->); [|by apply take_17_length].
    exists vs. split; [done|]. split; [done|]. reflexivity.
  - left. split; [done|]. right. by apply parity_total_None in E; [|apply take_17_length].
Qed.

(** ** Validity of one code *)

Lemma getitem_nonneg {A} (l : list A) i : 0 ≤ i → getitem l i = l !! Z.to_nat i.
Proof. intros H. unfold getitem. by destruct (Z.leb_spec 0 i); [|lia]. Qed.

Lemma position_atom_digit i : (2 ≤ i ≤ 7)%nat → position_atom i = Digit.
Proof.
  intros H. unfold position_atom.
  destruct (Nat.leb_spec 2 i), (Nat.leb_spec i 7); simpl; try lia; done.
Qed.

Lemma position_atom_class i : ¬ (2 ≤ i ≤ 7)%nat → position_atom i = Class CODE_CLASS.
Proof.
  intros H. unfold position_atom.
  destruct (Nat.leb_spec 2 i), (Nat.leb_spec i 7); simpl; try lia; done.
Qed.

Section Validity.
Variable U : Unicode.

Lemma upper_single c : upper U [c] = upper_char U c.
Proof. unfold upper. simpl. apply app_nil_r. Qed.

Lemma upper_alphabet c : c ∈ BASE_CODE → upper U [c] = [c].
Proof.
  intros H. apply alphabet_ascii in H. rewrite upper_single, upper_ascii by lia.
  unfold in_range. by replace ((97 <=? c) && (c <=? 122)) with false by lia.
Qed.

(** A string that has the pattern's shape in ASCII passes the check. *)
Lemma structural_pattern_simple code :
  length code = 18%nat → structural_pattern code →
  is_credit_code_simple U code = true.
Proof.
  intros Hl H. apply is_credit_code_simple_positions. split; [done|].
  intros i c Hc. specialize (H i c Hc). case_bool_decide as Hi.
  - rewrite position_atom_digit by done. simpl.
    rewrite decimal_ascii; [done|]. unfold in_range in H. lia.
  - by rewrite position_atom_class.
Qed.

(** A string that passes the check and whose characters are all of the
    alphabet has the pattern's shape in ASCII. *)
Lemma simple_structural_pattern code :
  is_credit_code_simple U code = true →
  (∀ c, c ∈ take 17 code → c ∈ BASE_CODE) →
  structural_pattern code.
Proof.
  intros H Hin. apply is_credit_code_simple_positions in H as [Hl H].
  intros i c Hc. specialize (H i c Hc). case_bool_decide as Hi.
  - rewrite position_atom_digit in H by done. simpl in H.
    assert (c ∈ BASE_CODE) as Hb.
    { apply Hin. apply list_elem_of_lookup. exists i. rewrite lookup_take_lt by lia. done. }
    apply alphabet_ascii in Hb. by rewrite decimal_ascii in H by lia.
  - by rewrite position_atom_class in H.
Qed.

Lemma structural_pattern_alphabet code c :
  structural_pattern code → c ∈ code → c ∈ BASE_CODE.
Proof.
  intros H Hc. apply list_elem_of_lookup in Hc as [i Hi]. specialize (H i c Hi).
  case_bool_decide.
  - revert H. unfold BASE_CODE, in_range. rewrite !elem_of_cons. lia.
  - by apply in_class_alphabet.
Qed.

Lemma Forall2_alphabet_value_exists chars :
  (∀ c, c ∈ chars → c ∈ BASE_CODE) → ∃ values, Forall2 alphabet_value chars values.
Proof.
  induction chars as [|c chars IH]; intros H.
  - exists []. constructor.
  - destruct IH as [vs Hvs]; [intros; apply H; by right|].
    destruct (alphabet_value_exists c) as [v Hv]; [apply H; by left|].
    exists (v :: vs). by constructor.
Qed.

Lemma Forall2_alphabet_value_elem chars values c :
  Forall2 alphabet_value chars values → c ∈ chars → c ∈ BASE_CODE.
Proof.
  intros HF Hc. apply list_elem_of_lookup in Hc as [i Hi].
  destruct (Forall2_lookup_l _ _ _ _ _ HF Hi) as (v & _ & Hv).
  by eapply alphabet_value_elem.
Qed.

(** What it takes for [is_credit_code] to answer [True]. *)
Lemma is_credit_code_true code :
  is_credit_code U code = Some true ↔
  is_credit_code_simple U code = true ∧
  ∃ values last_char expected,
    Forall2 alphabet_value (take 17 code) values ∧
    code !! 17%nat = Some last_char ∧
    BASE_CODE !! Z.to_nat (parity_index values) = Some expected ∧
    upper U [last_char] = [expected].
Proof.
  unfold is_credit_code. destruct (is_credit_code_simple U code) eqn:Es; simpl.
  2:{ split; [done|]. by intros [? _]. }
  destruct (get_parity_bit_cases code) as [[Hp _]|(vs & Hl & HF & Hp)].
  - rewrite Hp. simpl. split; [done|]. intros (_ & vs & ? & ? & HF & _).
    rewrite (get_parity_bit_values code vs) in Hp.
    + pose proof (parity_index_range vs). lia.
    + apply is_credit_code_simple_length in Es. lia.
    + done.
  - rewrite Hp. pose proof (parity_index_range vs) as Hr.
    destruct (Z.ltb_spec (parity_index vs) 0) as [?|_]; [lia|].
    rewrite !getitem_nonneg by lia. change (Z.to_nat 17) with 17%nat.
    split.
    + intros H. split; [done|].
      destruct (code !! 17%nat) as [last|] eqn:El; [|done]. simpl in H.
      destruct (BASE_CODE !! Z.to_nat (parity_index vs)) as [e|] eqn:Ee; [|done].
      simpl in H. injection H as H. apply bool_decide_eq_true in H.
      by exists vs, last, e.
    + intros (_ & vs' & last & e & HF' & -> & He & Hu). simpl.
      assert (vs' = vs) as ->.
      { eapply Forall2_unique; [exact HF'|exact HF|]. intros; by eapply alphabet_value_fun. }
      rewrite He. simpl. by rewrite bool_decide_eq_true_2.
Qed.

(** No [IndexError] escapes [is_credit_code]. *)
Lemma is_credit_code_total code : ∃ b, is_credit_code U code = Some b.
Proof.
  unfold is_credit_code. destruct (is_credit_code_simple U code) eqn:Es; simpl; [|by eexists].
  destruct (get_parity_bit_cases code) as [[Hp _]|(vs & Hl & HF & Hp)]; rewrite Hp.
  - simpl. by eexists.
  - pose proof (parity_index_range vs) as Hr.
    destruct (Z.ltb_spec (parity_index vs) 0) as [?|_]; [lia|].
    rewrite !getitem_nonneg by lia. change (Z.to_nat 17) with 17%nat.
    apply is_credit_code_simple_length in Es.
    destruct (lookup_lt_is_Some_2 code 17) as [last ->]; [lia|].
    destruct (lookup_lt_is_Some_2 BASE_CODE (Z.to_nat (parity_index vs))) as [e ->].
    { rewrite BASE_CODE_length. lia. }
    simpl. by eexists.
Qed.

(** C1: for every string, [is_credit_code] answers (no exception escapes),
    and it answers [True] exactly when the string has 18 characters, has the
    shape of the pattern (class characters at positions 0-1 and 8-17, ASCII
    digits at positions 2-7) and its 18th character, upper-cased, is the
    alphabet character at the parity index of the weighted sum of the first
    17 characters' alphabet values. *)
Theorem validate_iff_structure_and_checksum code :
  (∃ b, is_credit_code U code = Some b) ∧
  (is_credit_code U code = Some true ↔
   length code = 18%nat ∧
   structural_pattern code ∧
   ∃ values last_char expected,
     Forall2 alphabet_value (take 17 code) values ∧
     code !! 17%nat = Some last_char ∧
     BASE_CODE !! Z.to_nat (parity_index values) = Some expected ∧
     upper U [last_char] = [expected]).
Proof.
  split; [apply is_credit_code_total|].
  rewrite is_credit_code_true. split.
  - intros (Hs & vs & last & e & HF & Hlast & He & Hu).
    split; [by apply (is_credit_code_simple_length U)|].
    split; [|by exists vs, last, e].
    apply simple_structural_pattern; [done|].
    intros c Hc. by eapply Forall2_alphabet_value_elem.
  - intros (Hl & Hpat & Hex). split; [|done]. by apply structural_pattern_simple.
Qed.

End Validity.

(** ** The parity index *)

(** With ASCII digits at positions 2 to 7 the lookup cannot fail. *)
Lemma structural_pattern_parity_bit code :
  length code = 18%nat → structural_pattern code →
  ∃ values, Forall2 alphabet_value (take 17 code) values ∧
            get_parity_bit code = parity_index values.
Proof.
  intros Hl Hp.
  destruct (Forall2_alphabet_value_exists (take 17 code)) as [vs Hvs].
  { intros c Hc. apply (structural_pattern_alphabet code c Hp).
    apply elem_of_take in Hc as (i & Hi & _). by eapply list_elem_of_lookup_2. }
  exists vs. split; [done|]. apply get_parity_bit_values; [lia|done].
Qed.

(** C3: for a code that passes the structural check, [get_parity_bit] is
    31 minus the remainder modulo 31 of the weighted sum of the alphabet
    values of the first 17 characters, with 31 folded to 0; it is an index
    into the alphabet, and when the weighted sum is a multiple of 31 it is
    0, the index of the character ['0'].  The values exist when the digits
    of positions 2 to 7 are ASCII digits. *)
Theorem parity_bit_is_folded_complement (U : Unicode) code :
  is_credit_code_simple U code = true →
  (structural_pattern code →
   ∃ values, Forall2 alphabet_value (take 17 code) values)
  ∧ ∀ values, Forall2 alphabet_value (take 17 code) values →
      get_parity_bit code =
        (if 31 - weighted_sum values WEIGHT `mod` 31 =? 31 then 0
         else 31 - weighted_sum values WEIGHT `mod` 31)
      ∧ 0 ≤ get_parity_bit code ≤ 30
      ∧ (weighted_sum values WEIGHT `mod` 31 = 0 →
         get_parity_bit code = 0 ∧
         getitem BASE_CODE (get_parity_bit code) = Some (ord "0")).
Proof.
  intros Hs. apply is_credit_code_simple_length in Hs. split.
  - intros Hp. destruct (structural_pattern_parity_bit code Hs Hp) as (vs & HF & _).
    by exists vs.
  - intros values HF.
    rewrite (get_parity_bit_values code values) by (done || lia).
    split; [reflexivity|]. split; [apply parity_index_range|].
    intros H0. unfold parity_index. rewrite H0. split; reflexivity.
Qed.

Lemma parity_bit_is_folded_complement_witness :
  (structural_pattern (str "000000000000000000") →
   ∃ values, Forall2 alphabet_value (take 17 (str "000000000000000000")) values)
  ∧ ∀ values, Forall2 alphabet_value (take 17 (str "000000000000000000")) values →
      get_parity_bit (str "000000000000000000") =
        (if 31 - weighted_sum values WEIGHT `mod` 31 =? 31 then 0
         else 31 - weighted_sum values WEIGHT `mod` 31)
      ∧ 0 ≤ get_parity_bit (str "000000000000000000") ≤ 30
      ∧ (weighted_sum values WEIGHT `mod` 31 = 0 →
         get_parity_bit (str "000000000000000000") = 0 ∧
         getitem BASE_CODE (get_parity_bit (str "000000000000000000"))
         = Some (ord "0")).
Proof.
  apply (parity_bit_is_folded_complement ascii_db (str "000000000000000000")).
  reflexivity.
Defined.

(** ** Single-character corruption *)

Lemma weighted_sum_nil_r vs : weighted_sum vs [] = 0.
Proof. by destruct vs. Qed.

Lemma weighted_sum_app vs1 vs2 ws :
  weighted_sum (vs1 ++ vs2) ws =
  weighted_sum vs1 (take (length vs1) ws) + weighted_sum vs2 (drop (length vs1) ws).
Proof.
  revert ws. induction vs1 as [|v vs1 IH]; intros ws.
  - simpl. unfold weighted_sum at 2. simpl. rewrite drop_0. lia.
  - destruct ws as [|w ws].
    + by rewrite take_nil, drop_nil, !weighted_sum_nil_r.
    + unfold weighted_sum in *. simpl. rewrite IH. lia.
Qed.

(** Every weight is invertible modulo 31. *)
Lemma WEIGHT_coprime w : w ∈ WEIGHT → Z.gcd 31 w = 1.
Proof.
  unfold WEIGHT. rewrite !elem_of_cons, elem_of_nil.
  intros H. repeat (destruct H as [->|H]; [reflexivity|]). destruct H.
Qed.

Lemma weighted_difference_nonzero w d :
  w ∈ WEIGHT → -30 ≤ d ≤ 30 → d ≠ 0 → (d * w) `mod` 31 ≠ 0.
Proof.
  intros Hw Hd Hne H0. apply Z.mod_divide in H0; [|lia].
  rewrite Z.mul_comm in H0. apply Z.gauss in H0; [|by apply WEIGHT_coprime].
  destruct H0 as [k Hk]. lia.
Qed.

Lemma parity_index_inj vs1 vs2 :
  parity_index vs1 = parity_index vs2 →
  weighted_sum vs1 WEIGHT `mod` 31 = weighted_sum vs2 WEIGHT `mod` 31.
Proof.
  unfold parity_index.
  pose proof (Z.mod_pos_bound (weighted_sum vs1 WEIGHT) 31 ltac:(lia)).
  pose proof (Z.mod_pos_bound (weighted_sum vs2 WEIGHT) 31 ltac:(lia)).
  cbv zeta.
  destruct (Z.eqb_spec (31 - weighted_sum vs1 WEIGHT `mod` 31) 31),
           (Z.eqb_spec (31 - weighted_sum vs2 WEIGHT `mod` 31) 31); lia.
Qed.

(** Two strings with alphabet values that differ in one character, at a
    position that has a weight, have different weighted sums modulo 31. *)
Lemma weighted_sum_corrupted chars i old x vs vs' :
  chars !! i = Some old → x ≠ old → (i < length WEIGHT)%nat →
  Forall2 alphabet_value chars vs →
  Forall2 alphabet_value (<[i := x]> chars) vs' →
  weighted_sum vs WEIGHT `mod` 31 ≠ weighted_sum vs' WEIGHT `mod` 31.
Proof.
  intros Hi Hne Hw HF HF'.
  pose proof (lookup_lt_Some _ _ _ Hi) as Hlt.
  rewrite <-(take_drop_middle _ _ _ Hi) in HF.
  rewrite insert_take_drop in HF' by done.
  apply Forall2_app_inv_l in HF as (v1 & vr & H1 & Hr & ->).
  apply Forall2_cons_inv_l in Hr as (v & v2 & Hv & H2 & ->).
  apply Forall2_app_inv_l in HF' as (v1' & vr' & H1' & Hr' & ->).
  apply Forall2_cons_inv_l in Hr' as (v' & v2' & Hv' & H2' & ->).
  assert (v1' = v1) as ->.
  { eapply Forall2_unique; [exact H1'|exact H1|]. intros; by eapply alphabet_value_fun. }
  assert (v2' = v2) as ->.
  { eapply Forall2_unique; [exact H2'|exact H2|]. intros; by eapply alphabet_value_fun. }
  assert (length v1 = i) as Hl1.
  { apply Forall2_length in H1. rewrite length_take in H1. lia. }
  destruct (lookup_lt_is_Some_2 WEIGHT i Hw) as [w Hwi].
  assert (drop (length v1) WEIGHT = w :: drop (S i) WEIGHT) as Hd.
  { rewrite Hl1. by apply drop_S. }
  rewrite !weighted_sum_app, Hd. unfold weighted_sum at 2 4. cbn [zip_with foldr].
  fold (weighted_sum v2 (drop (S i) WEIGHT)).
  assert (v' ≠ v) as Hvne.
  { intros ->. apply Hne. by eapply alphabet_value_inj. }
  apply alphabet_value_range in Hv, Hv'.
  pose proof (weighted_difference_nonzero w (v' - v)
                ltac:(by eapply list_elem_of_lookup_2) ltac:(lia) ltac:(lia)) as Hnz.
  intros Heq. apply Hnz.
  set (a := weighted_sum v1 (take (length v1) WEIGHT)) in *.
  set (b := weighted_sum v2 (drop (S i) WEIGHT)) in *.
  replace ((v' - v) * w) with ((a + (v' * w + b)) - (a + (v * w + b))) by lia.
  rewrite Zminus_mod, Heq, Z.sub_diag. reflexivity.
Qed.

Section Corruption.
Variable U : Unicode.

Lemma valid_last_char code :
  is_credit_code_simple U code = true →
  ∃ last, code !! 17%nat = Some last ∧ last ∈ BASE_CODE.
Proof.
  intros [Hl H]%is_credit_code_simple_positions.
  destruct (lookup_lt_is_Some_2 code 17) as [last Hlast]; [lia|].
  exists last. split; [done|]. apply in_class_alphabet. exact (H 17%nat last Hlast).
Qed.

(** C2: in a code accepted as valid, replacing any one of the first 17
    characters by a different character gives a string that
    [is_credit_code] rejects. *)
Theorem single_corruption_rejected code i old x :
  is_credit_code U code = Some true →
  (i < 17)%nat → code !! i = Some old → x ≠ old →
  is_credit_code U (<[i := x]> code) = Some false.
Proof.
  intros Hv Hi Hold Hne.
  destruct (is_credit_code_total U (<[i := x]> code)) as [[|] Hb]; [|done].
  exfalso.
  apply is_credit_code_true in Hv as (Hs & vs & last & e & HF & Hlast & He & Hu).
  apply is_credit_code_true in Hb as (Hs' & vs' & last' & e' & HF' & Hlast' & He' & Hu').
  rewrite list_lookup_insert_ne in Hlast' by lia.
  assert (last' = last) as -> by congruence.
  destruct (valid_last_char _ Hs) as (l & Hl & Hin).
  assert (l = last) as -> by congruence.
  rewrite upper_alphabet in Hu, Hu' by done.
  injection Hu as <-. injection Hu' as <-.
  pose proof (NoDup_lookup _ _ _ _ BASE_CODE_NoDup He He') as Hidx.
  pose proof (parity_index_range vs). pose proof (parity_index_range vs').
  assert (parity_index vs = parity_index vs') as Hp by lia.
  apply parity_index_inj in Hp. revert Hp.
  apply is_credit_code_simple_length in Hs.
  rewrite take_insert_lt in HF' by done.
  eapply weighted_sum_corrupted; [| exact Hne | | exact HF | exact HF'].
  - by rewrite lookup_take_lt.
  - done.
Qed.

End Corruption.

Lemma single_corruption_rejected_witness :
  is_credit_code ascii_db (<[3%nat := ord "7"]> (str "911101087802323985")) = Some false.
Proof.
  apply (single_corruption_rejected ascii_db (str "911101087802323985") 3
           (ord "1") (ord "7")).
  - reflexivity.
  - lia.
  - reflexivity.
  - discriminate.
Defined.

(** ** Strings on which the character database has no say *)

Lemma forallb_elem (f : Z → bool) (s : pystr) c :
  forallb f s = true → c ∈ s → f c = true.
Proof.
  intros H Hc. apply list_elem_of_In in Hc.
  by apply (proj1 (forallb_forall f s) H).
Qed.

Lemma is_ascii_plain s : is_ascii s = true → is_plain s = true.
Proof.
  unfold is_ascii, is_plain. rewrite !forallb_forall. intros H c Hc.
  by rewrite (H c Hc).
Qed.

Lemma length_18_guard (code : pystr) :
  bool_decide (code = []) || negb (length code =? 18)%nat
  = negb (length code =? 18)%nat.
Proof. destruct code; [done|]. by rewrite bool_decide_eq_false_2. Qed.

Section Database.
Variable U : Unicode.

Lemma atom_matches_plain a c :
  in_range 0 127 c || in_range 65296 65305 c = true →
  atom_matches U a c = atom_matches ascii_db a c.
Proof.
  intros H. destruct a; [done|]. simpl. unfold ascii_is_decimal, in_range in *.
  destruct (decide (c < 128)).
  - rewrite decimal_ascii by lia. unfold in_range. lia.
  - rewrite decimal_fullwidth by lia. lia.
Qed.

Lemma is_credit_code_simple_plain code :
  is_plain code = true →
  is_credit_code_simple U code = is_credit_code_simple ascii_db code.
Proof.
  intros Hp. apply Bool.eq_iff_eq_true.
  rewrite !is_credit_code_simple_positions.
  assert (∀ i c, code !! i = Some c →
            atom_matches U (position_atom i) c
            = atom_matches ascii_db (position_atom i) c) as E.
  { intros i c Hc. apply atom_matches_plain.
    apply (forallb_elem _ _ _ Hp). by eapply list_elem_of_lookup_2. }
  split; intros [Hl H]; (split; [done|]); intros i c Hc.
  - rewrite <-E by done. by apply H.
  - rewrite E by done. by apply H.
Qed.

Lemma upper_char_ascii c :
  in_range 0 127 c = true → upper_char U c = upper_char ascii_db c.
Proof. intros H. unfold in_range in H. by rewrite upper_ascii by lia. Qed.

Lemma upper_ascii_db s : is_ascii s = true → upper U s = upper ascii_db s.
Proof.
  unfold upper. induction s as [|c s IH]; [done|].
  intros [Hc Hs]%andb_true_iff. by rewrite !bind_cons, (upper_char_ascii c Hc), (IH Hs).
Qed.

Lemma is_credit_code_ascii code :
  is_ascii code = true → is_credit_code U code = is_credit_code ascii_db code.
Proof.
  intros Ha. unfold is_credit_code.
  rewrite (is_credit_code_simple_plain code) by by apply is_ascii_plain.
  destruct (is_credit_code_simple ascii_db code) eqn:Es; [|done]. simpl.
  destruct (get_parity_bit code <? 0); [done|].
  apply is_credit_code_simple_length in Es.
  rewrite (getitem_nonneg code 17) by lia. change (Z.to_nat 17) with 17%nat.
  destruct (code !! 17%nat) as [last|] eqn:El; [|done]. simpl.
  destruct (getitem BASE_CODE (get_parity_bit code)) as [e|]; [|done]. simpl.
  rewrite !app_nil_r, upper_char_ascii; [done|].
  apply (forallb_elem _ _ _ Ha). by eapply list_elem_of_lookup_2.
Qed.

Lemma get_error_reason_plain_pass code :
  is_plain code = true → is_credit_code_simple ascii_db code = true →
  get_error_reason U code = get_error_reason ascii_db code.
Proof.
  intros Hp Hs. unfold get_error_reason.
  by rewrite (is_credit_code_simple_plain code Hp), Hs.
Qed.

Lemma get_error_reason_ascii code :
  is_ascii code = true → get_error_reason U code = get_error_reason ascii_db code.
Proof.
  intros Ha. unfold get_error_reason, invalid_chars.
  rewrite (is_credit_code_simple_plain code) by by apply is_ascii_plain.
  by rewrite (upper_ascii_db code Ha).
Qed.

End Database.

(** ** The pattern's digits and the alphabet *)

(** The outcome of the three functions at [fullwidth_code]. *)
Lemma fullwidth_code_outcome (U : Unicode) :
  is_credit_code_simple U fullwidth_code = true
  ∧ is_credit_code U fullwidth_code = Some false
  ∧ get_error_reason U fullwidth_code = Some UnknownError.
Proof.
  assert (is_credit_code_simple U fullwidth_code = true) as Hs.
  { by rewrite is_credit_code_simple_plain. }
  split; [done|]. split.
  - unfold is_credit_code. by rewrite Hs.
  - by rewrite get_error_reason_plain_pass.
Qed.

(** C9, at a string the program can receive: the full-width digit matches
    [\d], so the string passes the structural check, yet it has no alphabet
    value: [get_parity_bit] returns -1, [is_credit_code] rejects the string
    through that branch and [get_error_reason] ends in its last branch. *)
Theorem fullwidth_digit_reaches_lookup_failure (U : Unicode) :
  length fullwidth_code = 18%nat
  ∧ is_credit_code_simple U fullwidth_code = true
  ∧ fullwidth_code !! 2%nat = Some 65297
  ∧ CODE_INDEX_MAP !! 65297 = None
  ∧ get_parity_bit fullwidth_code = -1
  ∧ is_credit_code U fullwidth_code = Some false
  ∧ get_error_reason U fullwidth_code = Some UnknownError.
Proof.
  destruct (fullwidth_code_outcome U) as (Hs & Hv & Hr).
  repeat split; done.
Qed.

(** On an ASCII string the functions are evaluated with [ascii_db]. *)
Ltac ascii_eval :=
  first [ rewrite is_credit_code_ascii by reflexivity
        | rewrite get_error_reason_ascii by reflexivity ];
  vm_compute; reflexivity.

(** ** Upper and lower case *)

Section CaseHandling.
Variable U : Unicode.

(** A character outside the alphabet, at any position, makes
    [is_credit_code] answer [False]. *)
Lemma foreign_char_rejected code i c :
  code !! i = Some c → c ∉ BASE_CODE → is_credit_code U code = Some false.
Proof.
  intros Hc Hn. destruct (is_credit_code_total U code) as [[|] Hb]; [|done].
  exfalso. apply is_credit_code_true in Hb as (Hs & vs & _ & _ & HF & _).
  pose proof (is_credit_code_simple_length _ _ Hs) as Hl.
  pose proof (lookup_lt_Some _ _ _ Hc) as Hi.
  destruct (decide (i < 17)%nat) as [Hlt|Hge].
  - apply Hn. eapply Forall2_alphabet_value_elem; [exact HF|].
    apply elem_of_take. by exists i.
  - assert (i = 17%nat) as -> by lia.
    destruct (valid_last_char _ _ Hs) as (last & Hlast & Hin). congruence.
Qed.

Lemma lowercase_not_in_alphabet c : in_range 97 122 c = true → c ∉ BASE_CODE.
Proof. intros H Hin. apply alphabet_ascii in Hin. unfold in_range in H. lia. Qed.

(** C10, as the code has it: a lower-case letter at any position, the 18th
    included, makes [is_credit_code] answer [False]; in a code it accepts
    the 18th character is its own upper-case form, and putting a lower-case
    letter in its place gives a string it rejects. *)
Theorem lowercase_rejected_everywhere code :
  (∀ i c, code !! i = Some c → in_range 97 122 c = true →
          is_credit_code U code = Some false)
  ∧ (is_credit_code U code = Some true →
     ∃ last, code !! 17%nat = Some last ∧ upper U [last] = [last] ∧
       ∀ low, in_range 97 122 low = true →
              is_credit_code U (<[17%nat := low]> code) = Some false).
Proof.
  split.
  - intros i c Hc Hlow. eapply foreign_char_rejected; [exact Hc|].
    by apply lowercase_not_in_alphabet.
  - intros Hv. apply is_credit_code_true in Hv as (Hs & _).
    destruct (valid_last_char _ _ Hs) as (last & Hlast & Hin).
    exists last. split; [done|]. split; [by apply upper_alphabet|].
    intros low Hlow. apply (foreign_char_rejected _ 17 low).
    + apply list_lookup_insert_eq. by apply lookup_lt_Some in Hlast.
    + by apply lowercase_not_in_alphabet.
Qed.

End CaseHandling.

(** C10, as the claim has it, fails: this code is accepted, and rejected
    once its check character [W] is written in lower case. *)
Lemma lowercase_check_char_counterexample :
  (∀ U, is_credit_code U (str "91110000100000001W") = Some true)
  ∧ (∀ U, is_credit_code U (str "91110000100000001w") = Some false).
Proof. split; intros U; ascii_eval. Qed.

(** ** The known code *)

(** C8, as the claim has it, fails: no character database makes
    [is_credit_code] accept the code. *)
Lemma known_code_counterexample :
  ¬ ∃ U, is_credit_code U (str "91110108780232398H") = Some true.
Proof.
  intros [U H]. rewrite is_credit_code_ascii in H by reflexivity.
  vm_compute in H. discriminate H.
Qed.

(** C8, as the code has it: the code ending in [H] is rejected and the
    check character expected for its first 17 characters is [5]; with [5]
    in its place the code is accepted, and with any other character of the
    alphabet there it is rejected, [5] being reported as expected. *)
Theorem known_code_check_char (U : Unicode) :
  is_credit_code U (str "91110108780232398H") = Some false
  ∧ get_error_reason U (str "91110108780232398H") = Some (WrongParity (ord "5"))
  ∧ is_credit_code U (str "911101087802323985") = Some true
  ∧ ∀ x, x ∈ BASE_CODE → x ≠ ord "5" →
      is_credit_code U (str "91110108780232398" ++ [x]) = Some false
      ∧ get_error_reason U (str "91110108780232398" ++ [x])
        = Some (WrongParity (ord "5")).
Proof.
  split; [ascii_eval|]. split; [ascii_eval|]. split; [ascii_eval|].
  intros x Hx Hne. unfold BASE_CODE in Hx. rewrite !elem_of_cons, elem_of_nil in Hx.
  repeat (destruct Hx as [->|Hx];
          [first [ by destruct Hne | split; ascii_eval ]|]).
  destruct Hx.
Qed.

(** ** The reason shown for a rejected code *)

Lemma EXCLUDED_not_in_alphabet x :
  x ∈ EXCLUDED → (x ∉ BASE_CODE) ∧ 65 ≤ x ≤ 90.
Proof.
  unfold EXCLUDED, BASE_CODE. rewrite !elem_of_cons, !elem_of_nil. lia.
Qed.

Section Reason.
Variable U : Unicode.

Lemma upper_char_fixed c :
  c ∈ BASE_CODE ∨ c ∈ EXCLUDED → upper_char U c = [c].
Proof.
  intros H. assert (48 ≤ c ≤ 90) as Hc.
  { destruct H as [H|H]; [apply alphabet_ascii in H|apply EXCLUDED_not_in_alphabet in H]; lia. }
  rewrite upper_ascii by lia. unfold in_range.
  by replace ((97 <=? c) && (c <=? 122)) with false by lia.
Qed.

Lemma upper_fixed s :
  (∀ c, c ∈ s → c ∈ BASE_CODE ∨ c ∈ EXCLUDED) → upper U s = s.
Proof.
  unfold upper. induction s as [|c s IH]; intros H; [done|].
  rewrite bind_cons, upper_char_fixed by (apply H; by left).
  rewrite IH; [done|]. intros; apply H; by right.
Qed.

Lemma elem_of_invalid_chars code y :
  y ∈ invalid_chars U code ↔ y ∈ upper U code ∧ y ∉ BASE_CODE.
Proof. unfold invalid_chars. rewrite list_elem_of_filter. tauto. Qed.

(** An ASCII character outside the alphabet fails the pattern at every
    position. *)
Lemma foreign_ascii_fails_pattern code i c :
  code !! i = Some c → c ∉ BASE_CODE → 0 ≤ c < 128 →
  is_credit_code_simple U code = false.
Proof.
  intros Hc Hn Ha. destruct (is_credit_code_simple U code) eqn:Es; [|done].
  exfalso. apply is_credit_code_simple_positions in Es as [_ H].
  specialize (H i c Hc). unfold position_atom in H.
  destruct ((2 <=? i)%nat && (i <=? 7)%nat); simpl in H.
  - rewrite decimal_ascii in H by done. apply Hn.
    revert H. unfold in_range, BASE_CODE. rewrite !elem_of_cons. lia.
  - by apply in_class_alphabet in H.
Qed.

Lemma get_error_reason_length code :
  length code ≠ 18%nat → get_error_reason U code = Some WrongLength.
Proof.
  intros H. unfold get_error_reason. rewrite length_18_guard.
  by destruct (Nat.eqb_spec (length code) 18).
Qed.

Lemma get_error_reason_pattern code :
  length code = 18%nat → is_credit_code_simple U code = false →
  get_error_reason U code =
    Some (if bool_decide (invalid_chars U code = []) then BadFormat
          else IllegalChars (list_to_set (invalid_chars U code))).
Proof.
  intros Hl Hs. unfold get_error_reason. rewrite length_18_guard, Hl, Hs. simpl.
  by destruct (decide (invalid_chars U code = []));
    [rewrite bool_decide_eq_false_2, bool_decide_eq_true_2 by tauto
    |rewrite bool_decide_eq_true_2, bool_decide_eq_false_2 by tauto].
Qed.

Lemma get_error_reason_parity code values :
  is_credit_code_simple U code = true →
  Forall2 alphabet_value (take 17 code) values →
  ∃ e, BASE_CODE !! Z.to_nat (parity_index values) = Some e ∧
       get_error_reason U code = Some (WrongParity e).
Proof.
  intros Hs HF. pose proof (is_credit_code_simple_length _ _ Hs) as Hl.
  unfold get_error_reason. rewrite length_18_guard, Hl, Hs. simpl.
  rewrite (get_parity_bit_values code values) by (done || lia).
  pose proof (parity_index_range values) as Hr.
  destruct (Z.leb_spec 0 (parity_index values)) as [_|?]; [|lia].
  rewrite getitem_nonneg by lia.
  destruct (lookup_lt_is_Some_2 BASE_CODE (Z.to_nat (parity_index values))) as [e He].
  { rewrite BASE_CODE_length. lia. }
  exists e. by rewrite He.
Qed.

(** No [IndexError] escapes [get_error_reason]. *)
Lemma get_error_reason_total code : ∃ r, get_error_reason U code = Some r.
Proof.
  destruct (decide (length code = 18%nat)) as [Hl|Hl].
  2:{ eexists. by apply get_error_reason_length. }
  destruct (is_credit_code_simple U code) eqn:Es.
  2:{ eexists. by apply get_error_reason_pattern. }
  destruct (get_parity_bit_cases code) as [[Hp _]|(vs & _ & HF & _)].
  - exists UnknownError. unfold get_error_reason.
    by rewrite length_18_guard, Hl, Es, Hp.
  - destruct (get_error_reason_parity code vs Es HF) as (e & _ & ->). by eexists.
Qed.

(** C4, as the code has it: [get_error_reason] returns one reason, chosen
    in a fixed order.  A length other than 18 (17, say) gives the length
    reason.  Otherwise a string that fails the pattern gives the set of
    its upper-cased characters outside the alphabet, or the format reason
    when there is none.  Otherwise, when the first 17 characters have
    alphabet values, it gives the expected check character.  For an
    18-character string holding one of [I O S V Z] the set holds that
    letter, and it is the set of the excluded letters of the string when
    the string has no other character outside the alphabet. *)
Theorem error_reason_precedence code :
  ∃ r, get_error_reason U code = Some r ∧
    (length code ≠ 18%nat → r = WrongLength) ∧
    (length code = 17%nat → r = WrongLength) ∧
    (length code = 18%nat → is_credit_code_simple U code = false →
       r = if bool_decide (invalid_chars U code = []) then BadFormat
           else IllegalChars (list_to_set (invalid_chars U code))) ∧
    (∀ chars : gset Z, r = IllegalChars chars →
       ∀ y, y ∈ chars ↔ y ∈ upper U code ∧ y ∉ BASE_CODE) ∧
    (is_credit_code_simple U code = true →
       ∀ values, Forall2 alphabet_value (take 17 code) values →
         ∃ e, BASE_CODE !! Z.to_nat (parity_index values) = Some e ∧
              r = WrongParity e) ∧
    (length code = 18%nat → ∀ x, x ∈ code → x ∈ EXCLUDED →
       ∃ chars : gset Z, r = IllegalChars chars ∧ x ∈ chars ∧
         ((∀ y, y ∈ code → y ∈ BASE_CODE ∨ y ∈ EXCLUDED) →
          ∀ y, y ∈ chars ↔ y ∈ code ∧ y ∈ EXCLUDED)).
Proof.
  destruct (get_error_reason_total code) as [r Hr]. exists r.
  split; [done|].
  split. { intros Hl. rewrite get_error_reason_length in Hr by done. congruence. }
  split. { intros Hl. rewrite get_error_reason_length in Hr by lia. congruence. }
  split. { intros Hl Hs. rewrite get_error_reason_pattern in Hr by done. congruence. }
  split.
  { intros chars ->.
    destruct (decide (length code = 18%nat)) as [Hl|Hl].
    2:{ rewrite get_error_reason_length in Hr by done. discriminate Hr. }
    destruct (is_credit_code_simple U code) eqn:Es.
    - destruct (get_parity_bit_cases code) as [[Hp _]|(vs & _ & HF & _)].
      + unfold get_error_reason in Hr.
        rewrite length_18_guard, Hl, Es, Hp in Hr. discriminate Hr.
      + destruct (get_error_reason_parity code vs Es HF) as (e & _ & He). congruence.
    - rewrite get_error_reason_pattern in Hr by done.
      case_bool_decide; [discriminate Hr|]. injection Hr as <-.
      intros y. by rewrite elem_of_list_to_set, elem_of_invalid_chars. }
  split.
  { intros Hs vs HF. destruct (get_error_reason_parity code vs Hs HF) as (e & He & Hr').
    exists e. split; [done|]. congruence. }
  intros Hl x Hx Hex. pose proof (EXCLUDED_not_in_alphabet x Hex) as [Hn Hrange].
  pose proof Hx as Hx'. apply list_elem_of_lookup in Hx' as [i Hi].
  rewrite get_error_reason_pattern in Hr
    by (done || (eapply foreign_ascii_fails_pattern; [exact Hi|done|lia])).
  assert (x ∈ invalid_chars U code) as Hbad.
  { apply elem_of_invalid_chars. split; [|done]. unfold upper.
    apply list_elem_of_bind. exists x. split; [|done].
    rewrite upper_char_fixed by by right. by left. }
  case_bool_decide as Hnil; [rewrite Hnil in Hbad; by apply elem_of_nil in Hbad|].
  injection Hr as <-. eexists. split; [done|].
  split; [by apply elem_of_list_to_set|].
  intros Hall y. rewrite elem_of_list_to_set, elem_of_invalid_chars, upper_fixed by done.
  split.
  - intros [Hy Hny]. split; [done|]. by destruct (Hall y Hy).
  - intros [Hy Hey]. split; [done|]. by apply EXCLUDED_not_in_alphabet in Hey as [? _].
Qed.

End Reason.

(** C4, as the claim has it, fails twice.  For a string with [I] and [#]
    the set reported holds [#] as well, which is none of the excluded
    letters; and the string with a full-width digit passes the pattern, is
    rejected, and gets none of the three reasons of the claim. *)
Lemma error_reason_counterexample :
  (∀ U, get_error_reason U (str "I#0000000000000000")
        = Some (IllegalChars {[ord "I"; ord "#"]}))
  ∧ (ord "#" ∉ EXCLUDED)
  ∧ (∀ U, is_credit_code_simple U fullwidth_code = true
          ∧ is_credit_code U fullwidth_code = Some false
          ∧ get_error_reason U fullwidth_code = Some UnknownError).
Proof.
  split; [intros U; ascii_eval|].
  split.
  { unfold EXCLUDED. rewrite !elem_of_cons, elem_of_nil. vm_compute. intuition discriminate. }
  intros U. apply fullwidth_code_outcome.
Qed.

(** ** The tokenizer *)

Lemma is_linebreak_separator c : is_linebreak c = true → is_separator c = true.
Proof. unfold is_linebreak, is_separator, is_space, in_range. lia. Qed.

Lemma is_space_separator c : is_space c = true → is_separator c = true.
Proof. unfold is_separator. intros ->. by rewrite orb_true_r. Qed.

Lemma pieces_cons s : ∃ piece rest, pieces s = piece :: rest.
Proof.
  induction s as [|c s (p & r & IH)]; simpl; [by eexists _, _|].
  destruct (is_separator c); [by eexists _, _|]. rewrite IH. by eexists _, _.
Qed.

Lemma pieces_app a d b :
  is_separator d = true → pieces (a ++ d :: b) = pieces a ++ pieces b.
Proof.
  intros Hd. induction a as [|c a IH]; simpl; [by rewrite Hd|].
  rewrite IH. destruct (is_separator c); [done|].
  by destruct (pieces_cons a) as (p & r & ->).
Qed.

Lemma words_app a d b :
  is_separator d = true → words (a ++ d :: b) = words a ++ words b.
Proof. intros Hd. unfold words. by rewrite pieces_app, filter_app. Qed.

Lemma words_cons_separator c s : is_separator c = true → words (c :: s) = words s.
Proof. intros Hc. apply (words_app [] c s Hc). Qed.

Lemma words_cons_other c s :
  is_separator c = false → ∃ piece rest, words (c :: s) = (c :: piece) :: rest.
Proof.
  intros Hc. unfold words. simpl. rewrite Hc.
  destruct (pieces_cons s) as (p & r & ->).
  rewrite filter_cons_True by done. by eexists _, _.
Qed.

Lemma pieces_clean w :
  (∀ c, c ∈ w → is_separator c = false) → pieces w = [w].
Proof.
  induction w as [|c w IH]; intros H; [done|]. simpl.
  rewrite (H c) by by left. rewrite IH; [done|]. intros; apply H; by right.
Qed.

Lemma words_clean w :
  w ≠ [] → (∀ c, c ∈ w → is_separator c = false) → words w = [w].
Proof.
  intros Hne H. unfold words. rewrite pieces_clean by done.
  by rewrite filter_cons_True.
Qed.

Lemma words_nil_iff s : words s = [] ↔ ∀ c, c ∈ s → is_separator c = true.
Proof.
  induction s as [|c s IH].
  - split; [|done]. intros _ c Hc. by apply elem_of_nil in Hc.
  - destruct (is_separator c) eqn:Hc.
    + rewrite words_cons_separator, IH by done. split.
      * intros H x [->|Hx]%elem_of_cons; [done|by apply H].
      * intros H x Hx. apply H. by right.
    + destruct (words_cons_other c s Hc) as (p & r & ->). split; [done|].
      intros H. rewrite H in Hc by by left. done.
Qed.

(** [re.split] on the runs against the pieces. *)
Lemma re_split_plus_pieces s :
  (∃ piece rest rest',
     re_split_plus is_separator false s = piece :: rest ∧
     pieces s = piece :: rest' ∧
     filter (λ p, p ≠ []) rest = filter (λ p, p ≠ []) rest')
  ∧ filter (λ p, p ≠ []) (re_split_plus is_separator true s) = words s.
Proof.
  unfold words. induction s as [|c s [(p & r & r' & E1 & E2 & E3) IH2]]; simpl.
  - split; [|done]. by exists [], [], [].
  - destruct (is_separator c).
    + split.
      * exists [], (re_split_plus is_separator true s), (pieces s). by rewrite IH2.
      * rewrite IH2. by rewrite filter_cons_False by (intros H; by apply H).
    + rewrite E1, E2. split.
      * by exists (c :: p), r, r'.
      * rewrite !filter_cons_True by done. by rewrite E3.
Qed.

Lemma re_split_plus_words s :
  filter (λ p, p ≠ []) (re_split_plus is_separator false s) = words s.
Proof.
  destruct (re_split_plus_pieces s) as [(p & r & r' & -> & E2 & E3) _].
  unfold words. rewrite E2. destruct (decide (p ≠ [])).
  - rewrite !filter_cons_True by done. by rewrite E3.
  - rewrite !filter_cons_False by done. done.
Qed.

Lemma re_split_plus_clean in_run s piece c :
  piece ∈ re_split_plus is_separator in_run s → c ∈ piece → is_separator c = false.
Proof.
  revert in_run piece. induction s as [|x s IH]; intros in_run piece; simpl.
  - intros ->%list_elem_of_singleton Hc. by apply elem_of_nil in Hc.
  - destruct (is_separator x) eqn:Hx.
    + destruct in_run; [apply IH|].
      intros [->|H]%elem_of_cons; [intros Hc; by apply elem_of_nil in Hc|by eapply IH].
    + destruct (re_split_plus is_separator false s) as [|p r] eqn:E.
      * intros ->%list_elem_of_singleton ->%list_elem_of_singleton. done.
      * intros [->|H]%elem_of_cons.
        -- intros [->|Hc]%elem_of_cons; [done|].
           apply (IH false p); [rewrite E; by left|done].
        -- apply (IH false piece). rewrite E. by right.
Qed.

Lemma lstrip_clean s : (∀ c, c ∈ s → is_space c = false) → lstrip s = s.
Proof. destruct s as [|c s]; [done|]. intros H. simpl. by rewrite H by by left. Qed.

Lemma strip_clean s : (∀ c, c ∈ s → is_space c = false) → strip s = s.
Proof.
  intros H. unfold strip, rstrip. rewrite (lstrip_clean s H).
  rewrite lstrip_clean; [by rewrite reverse_involutive|].
  intros c Hc. apply H. by apply elem_of_reverse.
Qed.

Lemma separator_free_space_free (s : pystr) :
  (∀ c, c ∈ s → is_separator c = false) → ∀ c, c ∈ s → is_space c = false.
Proof.
  intros H c Hc. specialize (H c Hc).
  destruct (is_space c) eqn:E; [|done]. by rewrite is_space_separator in H.
Qed.

Lemma strip_pieces in_run s :
  strip <$> re_split_plus is_separator in_run s = re_split_plus is_separator in_run s.
Proof.
  rewrite <-(list_fmap_id (re_split_plus is_separator in_run s)) at 2.
  apply Forall_fmap_ext, Forall_forall. intros p Hp. simpl.
  apply strip_clean, separator_free_space_free.
  intros c. by apply (re_split_plus_clean in_run s).
Qed.

Lemma line_codes_words line : line_codes line = words line.
Proof.
  unfold line_codes. rewrite <-re_split_plus_words.
  assert (∀ l : list pystr,
            (∀ p, p ∈ l → strip p = p) →
            strip <$> filter (λ code, strip code ≠ []) l = filter (λ p, p ≠ []) l) as E.
  { induction l as [|p l IH]; intros H; [done|].
    assert (strip p = p) as Hp by (apply H; by left).
    destruct (decide (p = [])) as [->|Hne].
    - rewrite !filter_cons_False by (rewrite ?Hp; tauto). apply IH. intros; apply H; by right.
    - rewrite !filter_cons_True by (rewrite ?Hp; tauto). rewrite fmap_cons, Hp, IH; [done|].
      intros; apply H; by right. }
  apply E. intros p Hp. apply strip_clean, separator_free_space_free.
  intros c. by apply (re_split_plus_clean false line).
Qed.

Lemma tokenize_spec_words text : tokenize_spec text = words text.
Proof. unfold tokenize_spec. by rewrite strip_pieces, re_split_plus_words. Qed.

(** The first line of a text, its boundary and what follows. *)
Lemma splitlines_nil s : splitlines s = [] → s = [].
Proof.
  destruct s as [|c s]; [done|]. simpl.
  destruct (is_linebreak c); [done|]. by destruct (splitlines s).
Qed.

Lemma splitlines_cons s line lines :
  splitlines s = line :: lines →
  (s = line ∧ lines = [])
  ∨ ∃ boundary rest,
      s = line ++ boundary ++ rest ∧ lines = splitlines rest ∧
      (length rest < length s)%nat ∧
      ((∃ d, boundary = [d] ∧ is_linebreak d = true) ∨ boundary = [13; 10]).
Proof.
  revert line lines. induction s as [|c s IH]; intros line lines; [done|]. simpl.
  destruct (is_linebreak c) eqn:Hc.
  - intros [= <- <-]. right. destruct (Z.eqb_spec c 13) as [->|Hne].
    + destruct s as [|c' s'].
      * exists [13], []. split; [done|]. split; [done|]. split; [simpl; lia|]. left. by exists 13.
      * destruct (Z.eqb_spec c' 10) as [->|Hne'].
        -- exists [13; 10], s'. split; [done|]. split; [done|]. split; [simpl; lia|]. by right.
        -- exists [13], (c' :: s'). split; [done|]. split; [done|]. split; [simpl; lia|].
           left. by exists 13.
    + exists [c], s. split; [done|]. split; [done|]. split; [simpl; lia|]. left. by exists c.
  - destruct (splitlines s) as [|l ls] eqn:E.
    + intros [= <- <-]. left. by rewrite (splitlines_nil s E).
    + intros [= <- <-]. destruct (IH l ls eq_refl) as [[-> ->]|(b & r & -> & -> & Hlen & Hb)].
      * by left.
      * right. exists b, r. split; [done|]. split; [done|]. split; [simpl; lia|]. done.
Qed.

Lemma splitlines_words s : splitlines s ≫= words = words s.
Proof.
  remember (length s) as n eqn:Hn. revert s Hn.
  induction (lt_wf n) as [n _ IH]. intros s ->.
  destruct (splitlines s) as [|line lines] eqn:E.
  - by rewrite (splitlines_nil s E).
  - rewrite bind_cons.
    destruct (splitlines_cons s line lines E) as [[-> ->]|(b & r & -> & -> & Hlen & Hb)].
    + by rewrite app_nil_r.
    + rewrite (IH (length r) Hlen r eq_refl).
      destruct Hb as [(d & -> & Hd) | ->].
      * simpl. by rewrite words_app by by apply is_linebreak_separator.
      * simpl. rewrite words_app by done. by rewrite words_cons_separator.
Qed.

Lemma foldl_extend {A B} (f : B → list A) (l : list B) (acc : list A) :
  foldl (λ codes line, codes ++ f line) acc l = acc ++ (l ≫= f).
Proof.
  revert acc. induction l as [|x l IH]; intros acc; simpl.
  - by rewrite app_nil_r.
  - by rewrite IH, (assoc_L (++)).
Qed.

Lemma parse_codes_words text : parse_codes text = words text.
Proof.
  unfold parse_codes. rewrite foldl_extend. simpl.
  rewrite <-splitlines_words. by apply list_bind_ext; [intros l; apply line_codes_words|].
Qed.

(** C7: the codes read from a text are the pieces between the runs of
    separators (comma, full-width comma, white space, the line boundaries
    among it) that are not empty, in the order of the text and with
    repetitions kept: the program's reading by lines agrees with the split
    of the whole text, nothing comes from the empty text, a text gives the
    codes of its two parts around any separator, and a word without
    separator is its own single code. *)
Theorem tokenizer_splits_on_separator_runs :
  (∀ text, parse_codes text = tokenize_spec text)
  ∧ (∀ c, is_separator c = true ↔ c = ord "," ∨ c = 65292 ∨ is_space c = true)
  ∧ (∀ c, is_linebreak c = true → is_space c = true)
  ∧ parse_codes [] = []
  ∧ (∀ a d b, is_separator d = true →
       parse_codes (a ++ d :: b) = parse_codes a ++ parse_codes b)
  ∧ (∀ w, w ≠ [] → (∀ c, c ∈ w → is_separator c = false) → parse_codes w = [w])
  ∧ (∀ w d, w ≠ [] → (∀ c, c ∈ w → is_separator c = false) →
       is_separator d = true → parse_codes (w ++ d :: w) = [w; w])
  ∧ parse_codes (str "A,B C" ++ [10] ++ str "D" ++ [65292] ++ str "E")
    = [str "A"; str "B"; str "C"; str "D"; str "E"]
  ∧ parse_codes (str "   " ++ [10; 10]) = [].
Proof.
  split. { intros text. by rewrite parse_codes_words, tokenize_spec_words. }
  split.
  { intros c. unfold is_separator. change (ord ",") with 44.
    rewrite !orb_true_iff, !Z.eqb_eq. tauto. }
  split. { intros c. unfold is_linebreak, is_space, in_range. lia. }
  split; [done|].
  split. { intros a d b Hd. rewrite !parse_codes_words. by apply words_app. }
  split. { intros w Hne H. rewrite parse_codes_words. by apply words_clean. }
  split.
  { intros w d Hne H Hd. rewrite parse_codes_words, words_app by done.
    by rewrite words_clean. }
  split; vm_compute; reflexivity.
Qed.

(** ** The batch *)

Section Batch.
Variable U : Unicode.

Lemma classify_filter codes valid_codes invalid_codes :
  classify U codes valid_codes invalid_codes
  = Some (valid_codes ++ filter (accepted U) codes,
          invalid_codes ++ filter (λ code, ¬ accepted U code) codes).
Proof.
  revert valid_codes invalid_codes.
  induction codes as [|code codes IH]; intros vs ivs; simpl.
  - by rewrite !app_nil_r.
  - destruct (is_credit_code_total U code) as [[|] Hb]; rewrite Hb; simpl; rewrite IH.
    + rewrite filter_cons_True, filter_cons_False by (unfold accepted; tauto).
      by rewrite <-(assoc_L (++)).
    + rewrite filter_cons_False, filter_cons_True by (unfold accepted; congruence).
      by rewrite <-(assoc_L (++)).
Qed.

Lemma filter_lengths (codes : list pystr) :
  length codes
  = (length (filter (accepted U) codes) + length (filter (λ code, ¬ accepted U code) codes))%nat.
Proof.
  induction codes as [|code codes IH]; [done|].
  destruct (decide (accepted U code)).
  - rewrite filter_cons_True, filter_cons_False by tauto. simpl. lia.
  - rewrite filter_cons_False, filter_cons_True by tauto. simpl. lia.
Qed.

Lemma remerge_filter (codes : list pystr) :
  remerge ((λ code, bool_decide (accepted U code)) <$> codes)
          (filter (accepted U) codes) (filter (λ code, ¬ accepted U code) codes)
  = codes.
Proof.
  induction codes as [|code codes IH]; [done|]. rewrite fmap_cons.
  destruct (decide (accepted U code)).
  - rewrite filter_cons_True, filter_cons_False, bool_decide_eq_true_2 by tauto.
    simpl. by rewrite IH.
  - rewrite filter_cons_False, filter_cons_True, bool_decide_eq_false_2 by tauto.
    simpl. by rewrite IH.
Qed.

(** What [validate_credit_codes] returns. *)
Lemma validate_credit_codes_result text :
  validate_credit_codes U text = Some
    (if bool_decide (parse_codes text = []) then
       {| total := None; valid := []; invalid := []; error := Some NoCodesFound |}
     else
       {| total := Some (length (parse_codes text));
          valid := filter (accepted U) (parse_codes text);
          invalid := filter (λ code, ¬ accepted U code) (parse_codes text);
          error := None |}).
Proof.
  unfold validate_credit_codes. case_bool_decide; [done|].
  by rewrite classify_filter.
Qed.

(** C5: when the text holds at least one code, the batch counts the codes,
    the count is the sum of the lengths of the two lists, the valid list
    holds the accepted codes and the invalid list the others, each in the
    order of the text, and the two lists merged by the codes' outcomes give
    the codes of the text back. *)
Theorem batch_partitions_codes text :
  parse_codes text ≠ [] →
  ∃ r, validate_credit_codes U text = Some r ∧
    total r = Some (length (parse_codes text)) ∧
    total r = Some (length (valid r) + length (invalid r))%nat ∧
    valid r = filter (accepted U) (parse_codes text) ∧
    invalid r = filter (λ code, ¬ accepted U code) (parse_codes text) ∧
    remerge ((λ code, bool_decide (accepted U code)) <$> parse_codes text)
            (valid r) (invalid r)
    = parse_codes text.
Proof.
  intros Hne. eexists. split; [apply validate_credit_codes_result|].
  rewrite bool_decide_eq_false_2 by done. simpl.
  split; [done|]. split; [by rewrite <-filter_lengths|].
  split; [done|]. split; [done|]. apply remerge_filter.
Qed.

(** C6: the batch is answered for every text; it carries the error exactly
    when no code was read from the text, which is when the text holds
    separators only, and then both lists are empty; with at least one code
    read there is no error. *)
Theorem batch_error_iff_no_codes text :
  ∃ r, validate_credit_codes U text = Some r ∧
    (error r = Some NoCodesFound ↔ parse_codes text = []) ∧
    (error r = None ↔ parse_codes text ≠ []) ∧
    (parse_codes text = [] ↔ ∀ c, c ∈ text → is_separator c = true) ∧
    (parse_codes text = [] → valid r = [] ∧ invalid r = [] ∧ total r = None).
Proof.
  eexists. split; [apply validate_credit_codes_result|].
  split; [|split; [|split]].
  - case_bool_decide; simpl; split; done.
  - case_bool_decide; simpl; split; done.
  - rewrite parse_codes_words. apply words_nil_iff.
  - intros H. by rewrite bool_decide_eq_true_2.
Qed.

End Batch.

Lemma batch_partitions_codes_witness :
  ∃ r, validate_credit_codes ascii_db (str "911101087802323985 x,91110108780232398H")
       = Some r ∧
    total r = Some (length (parse_codes (str "911101087802323985 x,91110108780232398H"))) ∧
    total r = Some (length (valid r) + length (invalid r))%nat ∧
    valid r = filter (accepted ascii_db)
                (parse_codes (str "911101087802323985 x,91110108780232398H")) ∧
    invalid r = filter (λ code, ¬ accepted ascii_db code)
                  (parse_codes (str "911101087802323985 x,91110108780232398H")) ∧
    remerge ((λ code, bool_decide (accepted ascii_db code))
               <$> parse_codes (str "911101087802323985 x,91110108780232398H"))
            (valid r) (invalid r)
    = parse_codes (str "911101087802323985 x,91110108780232398H").
Proof.
  apply (batch_partitions_codes ascii_db
           (str "911101087802323985 x,91110108780232398H")).
  vm_compute. discriminate.
Defined.

Example batch_empty_text :
  validate_credit_codes ascii_db []
  = Some {| total := None; valid := []; invalid := []; error := Some NoCodesFound |}.
Proof. reflexivity. Qed.

Example batch_three_codes :
  validate_credit_codes ascii_db (str "911101087802323985 x,91110108780232398H")
  = Some {| total := Some 3%nat;
            valid := [str "911101087802323985"];
            invalid := [str "x"; str "91110108780232398H"];
            error := None |}.
Proof. vm_compute. reflexivity. Qed.

(** * Further properties of the validator *)

(** ** The parity index, its range and its failure *)

(** X1: [get_parity_bit] returns -1 exactly when the string has fewer than
    17 characters or one of its first 17 characters is outside the
    alphabet; otherwise it returns an index between 0 and 30, at which the
    alphabet has a character, and the characters after the 17th play no
    part. *)
Theorem get_parity_bit_range code :
  (get_parity_bit code = -1 ∨ 0 ≤ get_parity_bit code ≤ 30)
  ∧ (get_parity_bit code = -1 ↔
     (length code < 17)%nat ∨ ∃ c, c ∈ take 17 code ∧ c ∉ BASE_CODE)
  ∧ (0 ≤ get_parity_bit code →
     ∃ e, getitem BASE_CODE (get_parity_bit code) = Some e)
  ∧ (∀ suffix, (17 ≤ length code)%nat →
     get_parity_bit (code ++ suffix) = get_parity_bit code).
Proof.
  split; [|split; [|split]].
  - destruct (get_parity_bit_cases code) as [[-> _]|(vs & _ & _ & ->)]; [by left|].
    right. apply parity_index_range.
  - destruct (get_parity_bit_cases code) as [[Hp H]|(vs & Hl & HF & Hp)].
    + by rewrite Hp.
    + rewrite Hp. pose proof (parity_index_range vs). split; [lia|].
      intros [?|(c & Hc & Hn)]; [lia|].
      exfalso. apply Hn. by eapply Forall2_alphabet_value_elem.
  - intros Hp.
    destruct (get_parity_bit_cases code) as [[Hm _]|(vs & _ & _ & Hv)]; [lia|].
    rewrite Hv in *. rewrite getitem_nonneg by done.
    apply lookup_lt_is_Some_2. rewrite BASE_CODE_length.
    pose proof (parity_index_range vs). lia.
  - intros suffix Hl. unfold get_parity_bit. rewrite length_app.
    destruct (Nat.ltb_spec (length code) 17) as [?|_]; [lia|].
    destruct (Nat.ltb_spec (length code + length suffix) 17) as [?|_]; [lia|].
    by rewrite take_app_le by lia.
Qed.

(** ** The check character of a 17-character body *)

Section Completion.
Variable U : Unicode.

Lemma structural_pattern_app body x :
  length body = 17%nat → structural_pattern body → x ∈ BASE_CODE →
  structural_pattern (body ++ [x]).
Proof.
  intros Hl Hp Hx i c Hc. apply lookup_app_Some in Hc as [Hc|[Hi Hc]].
  - by apply Hp.
  - rewrite Hl in *. apply list_lookup_singleton_Some in Hc as [Hi' <-].
    rewrite bool_decide_eq_false_2 by lia. by apply in_class_alphabet.
Qed.

(** X2: a body of 17 characters of the pattern's shape has exactly one
    check character: the string made of the body and a character is
    accepted exactly when the character is the alphabet's character at
    [get_parity_bit] of the body. *)
Theorem check_character_unique body :
  length body = 17%nat → structural_pattern body →
  ∃ e, getitem BASE_CODE (get_parity_bit body) = Some e ∧
       ∀ x, is_credit_code U (body ++ [x]) = Some true ↔ x = e.
Proof.
  intros Hl Hp.
  destruct (Forall2_alphabet_value_exists body) as [vs HF].
  { intros c Hc. by apply (structural_pattern_alphabet body c Hp). }
  pose proof (get_parity_bit_values body vs ltac:(lia)
                ltac:(by rewrite take_ge by lia)) as Hv.
  pose proof (parity_index_range vs) as Hr.
  destruct (lookup_lt_is_Some_2 BASE_CODE (Z.to_nat (parity_index vs))) as [e He].
  { rewrite BASE_CODE_length. lia. }
  exists e. split. { rewrite Hv, getitem_nonneg by lia. done. }
  assert (e ∈ BASE_CODE) as Hin by by eapply list_elem_of_lookup_2.
  assert (∀ x, take 17 (body ++ [x]) = body) as Htake.
  { intros x. rewrite take_app_le by lia. by rewrite take_ge by lia. }
  assert (∀ x, (body ++ [x]) !! 17%nat = Some x) as Hlast.
  { intros x. rewrite lookup_app_r by lia. by rewrite Hl. }
  intros x. rewrite is_credit_code_true, Htake. split.
  - intros (Hs & vs' & last & e' & HF' & Hl' & He' & Hu).
    rewrite Hlast in Hl'. injection Hl' as <-.
    assert (vs' = vs) as ->.
    { eapply Forall2_unique; [exact HF'|exact HF|]. intros; by eapply alphabet_value_fun. }
    assert (e' = e) as -> by congruence.
    destruct (valid_last_char U _ Hs) as (l & Hll & Hlin).
    rewrite Hlast in Hll. injection Hll as <-.
    rewrite upper_alphabet in Hu by done. congruence.
  - intros ->. split.
    + apply structural_pattern_simple; [rewrite length_app; simpl; lia|].
      by apply structural_pattern_app.
    + exists vs, e, e. split; [done|]. split; [done|]. split; [done|].
      by apply upper_alphabet.
Qed.

End Completion.

Ltac pattern_eval :=
  let i := fresh "i" in let c := fresh "c" in let Hc := fresh "Hc" in
  intros i c Hc;
  do 17 (destruct i as [|i];
         [vm_compute in Hc; injection Hc as <-;
          case_bool_decide; first [reflexivity | lia]|]);
  discriminate Hc.

Lemma check_character_unique_witness :
  ∃ e, getitem BASE_CODE (get_parity_bit (str "91110108780232398")) = Some e ∧
       ∀ x, is_credit_code ascii_db (str "91110108780232398" ++ [x]) = Some true
            ↔ x = e.
Proof.
  apply (check_character_unique ascii_db (str "91110108780232398")).
  - reflexivity.
  - pattern_eval.
Defined.

(** ** Exchanged characters *)

Lemma weighted_sum_insert vs ws i v old w :
  vs !! i = Some old → ws !! i = Some w →
  weighted_sum (<[i := v]> vs) ws = weighted_sum vs ws + (v - old) * w.
Proof.
  revert ws i. induction vs as [|v0 vs IH]; intros [|w0 ws] [|i] Hv Hw;
    try discriminate Hv; try discriminate Hw; simpl in *.
  - injection Hv as ->. injection Hw as ->.
    unfold weighted_sum; cbn [zip_with foldr]. lia.
  - unfold weighted_sum in *; cbn [zip_with foldr]. rewrite (IH ws i) by done. lia.
Qed.

Lemma coprime_31 d : 1 ≤ d ≤ 30 → Z.gcd 31 d = 1.
Proof.
  intros H.
  assert (Hd : Z.to_nat d ∈ seq 1 30).
  { apply elem_of_seq. lia. }
  replace d with (Z.of_nat (Z.to_nat d)) by lia.
  revert Hd. generalize (Z.to_nat d). intros n Hn. simpl in Hn.
  rewrite !elem_of_cons, elem_of_nil in Hn.
  repeat (destruct Hn as [->|Hn]; [reflexivity|]). destruct Hn.
Qed.

Lemma product_nonzero_mod_31 a b :
  -30 ≤ a ≤ 30 → a ≠ 0 → -30 ≤ b ≤ 30 → b ≠ 0 → (a * b) `mod` 31 ≠ 0.
Proof.
  intros Ha Hane Hb Hbne H0. apply Z.mod_divide in H0; [|lia].
  assert (Z.gcd 31 a = 1) as Hg.
  { destruct (decide (0 < a)); [apply coprime_31; lia|].
    rewrite <-Z.gcd_opp_r. apply coprime_31. lia. }
  apply Z.gauss in H0; [|done]. destruct H0 as [k Hk]. lia.
Qed.

Lemma WEIGHT_NoDup : NoDup WEIGHT.
Proof. apply (bool_decide_unpack (NoDup WEIGHT)). vm_compute. exact I. Qed.

Lemma WEIGHT_range w : w ∈ WEIGHT → 1 ≤ w ≤ 30.
Proof. unfold WEIGHT. rewrite !elem_of_cons, elem_of_nil. lia. Qed.

(** The values of a string with one character replaced. *)
Lemma alphabet_values_insert chars vs i x v :
  Forall2 alphabet_value chars vs → alphabet_value x v →
  Forall2 alphabet_value (<[i := x]> chars) (<[i := v]> vs).
Proof. intros HF Hx. by apply Forall2_insert. Qed.

Section Exchange.
Variable U : Unicode.

(** X3: in an accepted code, exchanging two different characters among
    the first 17, adjacent or not, gives a string that [is_credit_code]
    rejects: the 17 weights are pairwise different modulo 31. *)
Theorem transposition_rejected code i j a b :
  is_credit_code U code = Some true →
  (i < 17)%nat → (j < 17)%nat →
  code !! i = Some a → code !! j = Some b → a ≠ b →
  is_credit_code U (<[i := b]> (<[j := a]> code)) = Some false.
Proof.
  intros Hv Hi Hj Ha Hb Hne.
  assert (i ≠ j) as Hij by (intros ->; congruence).
  destruct (is_credit_code_total U (<[i := b]> (<[j := a]> code))) as [[|] Hr]; [|done].
  exfalso.
  apply is_credit_code_true in Hv as (Hs & vs & last & e & HF & Hlast & He & Hu).
  apply is_credit_code_true in Hr as (Hs' & vs' & last' & e' & HF' & Hlast' & He' & Hu').
  pose proof (is_credit_code_simple_length _ _ Hs) as Hlen.
  rewrite !list_lookup_insert_ne in Hlast' by lia.
  assert (last' = last) as -> by congruence.
  destruct (valid_last_char U _ Hs) as (l & Hl & Hin).
  assert (l = last) as -> by congruence.
  rewrite upper_alphabet in Hu, Hu' by done.
  injection Hu as <-. injection Hu' as <-.
  pose proof (NoDup_lookup _ _ _ _ BASE_CODE_NoDup He He') as Hidx.
  pose proof (parity_index_range vs). pose proof (parity_index_range vs').
  assert (parity_index vs = parity_index vs') as Hp by lia.
  apply parity_index_inj in Hp.
  (* the values of the two strings *)
  assert (take 17 code !! i = Some a) as Hai by by rewrite lookup_take_lt.
  assert (take 17 code !! j = Some b) as Hbj by by rewrite lookup_take_lt.
  destruct (Forall2_lookup_l _ _ _ _ _ HF Hai) as (va & Hva & Hvala).
  destruct (Forall2_lookup_l _ _ _ _ _ HF Hbj) as (vb & Hvb & Hvalb).
  rewrite !take_insert_lt in HF' by done.
  assert (vs' = <[i := vb]> (<[j := va]> vs)) as ->.
  { eapply Forall2_unique; [exact HF'| |intros; by eapply alphabet_value_fun].
    apply alphabet_values_insert; [apply alphabet_values_insert|]; done. }
  destruct (lookup_lt_is_Some_2 WEIGHT i ltac:(done)) as [wi Hwi].
  destruct (lookup_lt_is_Some_2 WEIGHT j ltac:(done)) as [wj Hwj].
  rewrite (weighted_sum_insert _ _ i vb va wi) in Hp
    by (done || by rewrite list_lookup_insert_ne).
  rewrite (weighted_sum_insert _ _ j va vb wj) in Hp by done.
  assert (va ≠ vb) as Hvne.
  { intros ->. apply Hne. by eapply alphabet_value_inj. }
  assert (wi ≠ wj) as Hwne.
  { intros ->. apply Hij. by eapply NoDup_lookup; [apply WEIGHT_NoDup|..]. }
  apply alphabet_value_range in Hvala, Hvalb.
  pose proof (WEIGHT_range wi ltac:(by eapply list_elem_of_lookup_2)).
  pose proof (WEIGHT_range wj ltac:(by eapply list_elem_of_lookup_2)).
  apply (product_nonzero_mod_31 (va - vb) (wj - wi)); try lia.
  set (S := weighted_sum vs WEIGHT) in *.
  replace ((va - vb) * (wj - wi))
    with ((S + (va - vb) * wj + (vb - va) * wi) - S) by lia.
  rewrite Zminus_mod, <-Hp, Z.sub_diag. reflexivity.
Qed.

(** The parity index answers to the sum, the index included, being a
    multiple of 31. *)
Lemma parity_index_spec vs v :
  0 ≤ v ≤ 30 →
  parity_index vs = v ↔ (weighted_sum vs WEIGHT + v) `mod` 31 = 0.
Proof.
  intros Hv. unfold parity_index. cbv zeta.
  generalize (weighted_sum vs WEIGHT). intros S.
  destruct (Z.eqb_spec (31 - S `mod` 31) 31); Z.div_mod_to_equations; lia.
Qed.

(** X4: exchanging the first and the last character of an accepted code
    gives an accepted code again: both positions carry the weight 1 of the
    checksum, and the pattern asks the same of both. *)
Theorem first_last_exchange_accepted code a b :
  is_credit_code U code = Some true →
  code !! 0%nat = Some a → code !! 17%nat = Some b →
  is_credit_code U (<[0%nat := b]> (<[17%nat := a]> code)) = Some true.
Proof.
  intros Hv Ha Hb.
  apply is_credit_code_true in Hv as (Hs & vs & last & e & HF & Hlast & He & Hu).
  pose proof (is_credit_code_simple_length _ _ Hs) as Hlen.
  assert (last = b) as -> by congruence.
  destruct (valid_last_char U _ Hs) as (l & Hl & Hbin).
  assert (l = b) as -> by congruence.
  rewrite upper_alphabet in Hu by done. injection Hu as <-.
  pose proof (proj1 (is_credit_code_simple_positions U code) Hs) as [_ Hpos].
  assert (a ∈ BASE_CODE) as Hain.
  { apply in_class_alphabet. exact (Hpos 0%nat a Ha). }
  assert (take 17 code !! 0%nat = Some a) as Ha0 by by rewrite lookup_take_lt by lia.
  destruct (Forall2_lookup_l _ _ _ _ _ HF Ha0) as (va & Hva & Hvala).
  pose proof (parity_index_range vs) as Hr.
  assert (alphabet_value b (parity_index vs)) as Hvalb by (split; [lia|done]).
  apply is_credit_code_true. split.
  - apply is_credit_code_simple_positions. split; [by rewrite !length_insert|].
    intros i c Hc. destruct (decide (i = 0%nat)) as [->|H0].
    + rewrite list_lookup_insert_eq in Hc by (rewrite length_insert; lia).
      injection Hc as <-. by apply in_class_alphabet.
    + rewrite list_lookup_insert_ne in Hc by done.
      destruct (decide (i = 17%nat)) as [->|H17].
      * rewrite list_lookup_insert_eq in Hc by lia. injection Hc as <-.
        by apply in_class_alphabet.
      * rewrite list_lookup_insert_ne in Hc by done. by apply Hpos.
  - exists (<[0%nat := parity_index vs]> vs), a, a.
    split.
    { rewrite take_insert_lt by lia. rewrite take_insert_ge by lia.
      by apply alphabet_values_insert. }
    split.
    { rewrite list_lookup_insert_ne by lia. apply list_lookup_insert_eq. lia. }
    split; [|by apply upper_alphabet].
    assert (parity_index (<[0%nat := parity_index vs]> vs) = va) as ->.
    { apply alphabet_value_range in Hvala.
      apply parity_index_spec; [done|].
      rewrite (weighted_sum_insert _ _ 0 _ va 1) by done.
      replace (weighted_sum vs WEIGHT + (parity_index vs - va) * 1 + va)
        with (weighted_sum vs WEIGHT + parity_index vs) by lia.
      by apply parity_index_spec. }
    by destruct Hvala.
Qed.

(** X5: the answer of [is_credit_code] does not depend on the character
    database: what a version of Unicode adds to the decimal digits or to
    the case mappings changes no verdict. *)
Theorem verdict_database_independent (U' : Unicode) code :
  is_credit_code U code = is_credit_code U' code.
Proof.
  assert (∀ V W : Unicode,
            is_credit_code V code = Some true → is_credit_code W code = Some true) as H.
  { intros V W (Hs & vs & last & e & HF & Hlast & He & Hu)%is_credit_code_true.
    pose proof (is_credit_code_simple_length _ _ Hs) as Hlen.
    destruct (valid_last_char V _ Hs) as (l & Hl & Hin).
    assert (l = last) as -> by congruence.
    rewrite upper_alphabet in Hu by done. injection Hu as <-.
    apply is_credit_code_true. split.
    - apply structural_pattern_simple; [done|].
      apply (simple_structural_pattern V); [done|].
      intros c Hc. by eapply Forall2_alphabet_value_elem.
    - exists vs, last, last. split; [done|]. split; [done|]. split; [done|].
      by apply upper_alphabet. }
  destruct (is_credit_code_total U code) as [[|] Hb],
           (is_credit_code_total U' code) as [[|] Hb']; try congruence.
  - apply (H U U') in Hb. congruence.
  - apply (H U' U) in Hb'. congruence.
Qed.

End Exchange.

Lemma transposition_rejected_witness :
  is_credit_code ascii_db
    (<[0%nat := ord "1"]> (<[1%nat := ord "9"]> (str "911101087802323985")))
  = Some false.
Proof.
  apply (transposition_rejected ascii_db (str "911101087802323985") 0 1
           (ord "9") (ord "1")).
  - reflexivity.
  - lia.
  - lia.
  - reflexivity.
  - reflexivity.
  - discriminate.
Defined.

Lemma first_last_exchange_accepted_witness :
  is_credit_code ascii_db
    (<[0%nat := ord "W"]> (<[17%nat := ord "9"]> (str "91110000100000001W")))
  = Some true.
Proof.
  apply (first_last_exchange_accepted ascii_db (str "91110000100000001W")
           (ord "9") (ord "W")); reflexivity.
Defined.

(** ** The reason and the verdict *)

Section ReasonVerdict.
Variable U : Unicode.

(** When the reason is the expected check character. *)
Lemma get_error_reason_WrongParity code e :
  get_error_reason U code = Some (WrongParity e) ↔
  is_credit_code_simple U code = true ∧
  ∃ values, Forall2 alphabet_value (take 17 code) values ∧
            BASE_CODE !! Z.to_nat (parity_index values) = Some e.
Proof.
  split.
  - intros Hr. destruct (decide (length code = 18%nat)) as [Hl|Hl].
    2:{ rewrite get_error_reason_length in Hr by done. discriminate Hr. }
    destruct (is_credit_code_simple U code) eqn:Es.
    2:{ rewrite get_error_reason_pattern in Hr by done.
        case_bool_decide; discriminate Hr. }
    split; [done|].
    destruct (get_parity_bit_cases code) as [[Hp _]|(vs & _ & HF & _)].
    + unfold get_error_reason in Hr.
      rewrite length_18_guard, Hl, Es, Hp in Hr. discriminate Hr.
    + destruct (get_error_reason_parity U code vs Es HF) as (e' & He' & Hr').
      exists vs. split; [done|]. congruence.
  - intros (Hs & vs & HF & He).
    destruct (get_error_reason_parity U code vs Hs HF) as (e' & He' & ->). congruence.
Qed.

(** X6: when the reason given for a code is the expected check character,
    the code with that character in 18th place is accepted, and the code
    itself is accepted exactly when that character is already there. *)
Theorem expected_character_repairs code e :
  get_error_reason U code = Some (WrongParity e) →
  is_credit_code U (<[17%nat := e]> code) = Some true
  ∧ (is_credit_code U code = Some true ↔ code !! 17%nat = Some e).
Proof.
  intros (Hs & vs & HF & He)%get_error_reason_WrongParity.
  pose proof (is_credit_code_simple_length _ _ Hs) as Hlen.
  assert (e ∈ BASE_CODE) as Hin by by eapply list_elem_of_lookup_2.
  pose proof (proj1 (is_credit_code_simple_positions U code) Hs) as [_ Hpos].
  split.
  - apply is_credit_code_true. split.
    + apply is_credit_code_simple_positions. split; [by rewrite length_insert|].
      intros i c Hc. destruct (decide (i = 17%nat)) as [->|Hi].
      * rewrite list_lookup_insert_eq in Hc by lia. injection Hc as <-.
        by apply in_class_alphabet.
      * rewrite list_lookup_insert_ne in Hc by done. by apply Hpos.
    + exists vs, e, e. rewrite take_insert_ge by lia.
      split; [done|]. split; [apply list_lookup_insert_eq; lia|].
      split; [done|]. by apply upper_alphabet.
  - rewrite is_credit_code_true. split.
    + intros (_ & vs' & last & e' & HF' & Hlast & He' & Hu).
      assert (vs' = vs) as ->.
      { eapply Forall2_unique; [exact HF'|exact HF|]. intros; by eapply alphabet_value_fun. }
      destruct (valid_last_char U _ Hs) as (l & Hl & Hlin).
      assert (l = last) as -> by congruence.
      rewrite upper_alphabet in Hu by done. congruence.
    + intros Hlast. split; [done|]. exists vs, e, e.
      split; [done|]. split; [done|]. split; [done|]. by apply upper_alphabet.
Qed.

(** X7: [get_error_reason] answers for every string, and each of its
    reasons other than the expected check character is given to rejected
    strings only. *)
Theorem other_reasons_mean_rejected code :
  ∃ r, get_error_reason U code = Some r ∧
       ((∀ e, r ≠ WrongParity e) → is_credit_code U code = Some false).
Proof.
  destruct (get_error_reason_total U code) as [r Hr]. exists r. split; [done|].
  intros Hne. destruct (is_credit_code_total U code) as [[|] Hb]; [|done].
  exfalso. apply is_credit_code_true in Hb as (Hs & vs & _ & _ & HF & _).
  destruct (get_error_reason_parity U code vs Hs HF) as (e & _ & He).
  apply (Hne e). congruence.
Qed.

(** ** The pattern and the length guard *)

(** X8: the pattern alone also matches a string of 19 characters that ends
    in a line feed, since [$] matches before a final line feed; it is the
    length guard of [is_credit_code_simple] that turns such a string
    down, and with it [is_credit_code]. *)
Theorem pattern_matches_before_final_newline s :
  (re_match U CREDIT_CODE_PATTERN s = true ↔
   is_credit_code_simple U s = true
   ∨ ∃ s', s = s' ++ [10] ∧ is_credit_code_simple U s' = true)
  ∧ (is_credit_code_simple U s = true →
     re_match U CREDIT_CODE_PATTERN (s ++ [10]) = true
     ∧ is_credit_code_simple U (s ++ [10]) = false
     ∧ is_credit_code U (s ++ [10]) = Some false).
Proof.
  assert (∀ s', is_credit_code_simple U s' = true →
                re_match U CREDIT_CODE_PATTERN (s' ++ [10]) = true) as Hnl.
  { intros s' Hs. unfold re_match. apply is_credit_code_simple_Forall2 in Hs.
    assert (match_seq U CREDIT_CODE_PATTERN (s' ++ [10]) = Some [10]) as ->; [|done].
    apply match_seq_Some. by exists s'. }
  split.
  - split.
    + unfold re_match.
      destruct (match_seq U CREDIT_CODE_PATTERN s) as [rest|] eqn:E; [|done].
      apply match_seq_Some in E as (pre & -> & HF). intros Hd.
      assert (is_credit_code_simple U pre = true) as Hpre
        by by apply is_credit_code_simple_Forall2.
      destruct rest as [|c [|? ?]]; [|simpl in Hd|done].
      * left. by rewrite app_nil_r.
      * right. exists pre. split; [|done]. f_equal. f_equal. lia.
    + intros [Hs|(s' & -> & Hs)]; [|by apply Hnl].
      unfold re_match. apply is_credit_code_simple_Forall2 in Hs.
      assert (match_seq U CREDIT_CODE_PATTERN s = Some []) as ->; [|done].
      apply match_seq_Some. exists s. by rewrite app_nil_r.
  - intros Hs. split; [by apply Hnl|].
    apply is_credit_code_simple_length in Hs.
    assert (is_credit_code_simple U (s ++ [10]) = false) as E.
    { destruct (is_credit_code_simple U (s ++ [10])) eqn:E; [|done].
      apply is_credit_code_simple_length in E. rewrite length_app in E. simpl in E. lia. }
    split; [done|]. unfold is_credit_code. by rewrite E.
Qed.

End ReasonVerdict.

Lemma expected_character_repairs_witness :
  is_credit_code ascii_db (<[17%nat := ord "5"]> (str "91110108780232398H")) = Some true
  ∧ (is_credit_code ascii_db (str "91110108780232398H") = Some true
     ↔ str "91110108780232398H" !! 17%nat = Some (ord "5")).
Proof.
  apply (expected_character_repairs ascii_db (str "91110108780232398H") (ord "5")).
  vm_compute. reflexivity.
Defined.

(** * Further properties of the tokenizer and the batch *)

Lemma words_separators t s :
  (∀ c, c ∈ t → is_separator c = true) → words (t ++ s) = words s.
Proof.
  induction t as [|d t IH]; intros H; [done|]. simpl.
  rewrite words_cons_separator by (apply H; by left).
  apply IH. intros; apply H; by right.
Qed.

Lemma words_separators_end s t :
  (∀ c, c ∈ t → is_separator c = true) → words (s ++ t) = words s.
Proof.
  intros H. destruct t as [|d t]; [by rewrite app_nil_r|].
  rewrite words_app by (apply H; by left).
  assert (words t = []) as ->; [|by rewrite app_nil_r].
  apply words_nil_iff. intros; apply H; by right.
Qed.

Lemma words_elem_clean s w :
  w ∈ words s → w ≠ [] ∧ ∀ c, c ∈ w → is_separator c = false.
Proof.
  unfold words. intros [Hne Hw]%list_elem_of_filter. split; [done|].
  clear Hne. revert w Hw. induction s as [|x s IH]; intros w; simpl.
  - intros ->%list_elem_of_singleton c Hc. by apply elem_of_nil in Hc.
  - destruct (is_separator x) eqn:Hx.
    + intros [->|Hw]%elem_of_cons; [intros c Hc; by apply elem_of_nil in Hc|by apply IH].
    + destruct (pieces_cons s) as (p & r & E). rewrite E in *.
      intros [->|Hw]%elem_of_cons.
      * intros c [->|Hc]%elem_of_cons; [done|]. apply (IH p); [by left|done].
      * apply IH. by right.
Qed.

Lemma pieces_concat s :
  concat (pieces s) = filter (λ c, is_separator c = false) s.
Proof.
  induction s as [|x s IH]; [done|]. simpl. destruct (is_separator x) eqn:Hx.
  - rewrite filter_cons_False by congruence. done.
  - rewrite filter_cons_True by done. destruct (pieces_cons s) as (p & r & E).
    rewrite E in *. simpl in *. by rewrite <-IH.
Qed.

Lemma concat_filter_nonempty {A} (l : list (list A)) :
  concat (filter (λ p, p ≠ []) l) = concat l.
Proof.
  induction l as [|p l IH]; [done|]. destruct (decide (p = [])) as [->|Hne].
  - by rewrite filter_cons_False by tauto.
  - rewrite filter_cons_True by done. simpl. by rewrite IH.
Qed.

Lemma words_infix s w : w ∈ words s → ∃ a b, s = a ++ w ++ b.
Proof.
  unfold words. intros [_ Hw]%list_elem_of_filter.
  revert w Hw. induction s as [|x s IH]; intros w; simpl.
  - intros ->%list_elem_of_singleton. by exists [], [].
  - destruct (is_separator x) eqn:Hx.
    + intros [->|Hw]%elem_of_cons; [by exists [], (x :: s)|].
      destruct (IH w Hw) as (a & b & ->). by exists (x :: a), b.
    + destruct (pieces_cons s) as (p & r & E). rewrite E in *.
      intros [->|Hw]%elem_of_cons.
      * assert (∃ b, s = p ++ b) as [b ->]; [|by exists [], b].
        clear IH. revert p r E. induction s as [|y s IHs]; intros p r; simpl.
        -- intros [= <- <-]. by exists [].
        -- destruct (is_separator y).
           ++ intros [= <- <-]. by exists (y :: s).
           ++ destruct (pieces_cons s) as (p' & r' & E'). rewrite E'.
              intros [= <- <-]. destruct (IHs p' r' E') as [b ->]. by exists b.
      * destruct (IH w ltac:(by right)) as (a & b & ->). by exists (x :: a), b.
Qed.

(** X9: every code read from a text is a non-empty stretch of the text
    without separators, so without blanks and commas; and the codes, put
    end to end, are the text with its separators taken out: no character
    is dropped, added or moved. *)
Theorem codes_are_the_text_without_separators text :
  (∀ code, code ∈ parse_codes text →
     code ≠ [] ∧ (∀ c, c ∈ code → is_separator c = false)
     ∧ ∃ before after, text = before ++ code ++ after)
  ∧ concat (parse_codes text) = filter (λ c, is_separator c = false) text.
Proof.
  rewrite parse_codes_words. split.
  - intros code Hc. destruct (words_elem_clean text code Hc) as [Hne Hclean].
    split; [done|]. split; [done|]. by apply words_infix.
  - unfold words. by rewrite concat_filter_nonempty, pieces_concat.
Qed.

Lemma words_join sep items :
  sep ≠ [] → (∀ c, c ∈ sep → is_separator c = true) →
  (∀ w, w ∈ items → w ≠ [] ∧ ∀ c, c ∈ w → is_separator c = false) →
  words (join sep items) = items.
Proof.
  intros Hne Hsep. induction items as [|w items IH]; intros H; [done|].
  destruct (H w ltac:(by left)) as [Hw Hclean].
  destruct items as [|w' items]; [by apply words_clean|].
  change (join sep (w :: w' :: items)) with (w ++ sep ++ join sep (w' :: items)).
  destruct sep as [|d sep]; [done|].
  change ((d :: sep) ++ join (d :: sep) (w' :: items))
    with (d :: (sep ++ join (d :: sep) (w' :: items))).
  rewrite words_app by (apply Hsep; by left).
  rewrite words_clean by done.
  rewrite words_separators by (intros; apply Hsep; by right).
  rewrite IH; [done|]. intros; apply H; by right.
Qed.

(** X10: codes written out with a separator between them are read back as
    they were: for a list of non-empty words without separators, and for
    the codes read from any text, joining with a non-empty string of
    separators and reading gives the list again. *)
Theorem join_then_parse sep :
  sep ≠ [] → (∀ c, c ∈ sep → is_separator c = true) →
  (∀ items,
     (∀ w, w ∈ items → w ≠ [] ∧ ∀ c, c ∈ w → is_separator c = false) →
     parse_codes (join sep items) = items)
  ∧ ∀ text, parse_codes (join sep (parse_codes text)) = parse_codes text.
Proof.
  intros Hne Hsep. split.
  - intros items H. rewrite parse_codes_words. by apply words_join.
  - intros text. rewrite !parse_codes_words. apply words_join; [done|done|].
    intros w. apply words_elem_clean.
Qed.

Lemma lstrip_split s :
  ∃ t, s = t ++ lstrip s ∧ ∀ c, c ∈ t → is_space c = true.
Proof.
  induction s as [|x s (t & Hs & Ht)]; simpl.
  - exists []. split; [done|]. intros c Hc. by apply elem_of_nil in Hc.
  - destruct (is_space x) eqn:Hx.
    + exists (x :: t). split; [simpl; by rewrite <-Hs|].
      intros c [->|Hc]%elem_of_cons; [done|by apply Ht].
    + exists []. split; [done|]. intros c Hc. by apply elem_of_nil in Hc.
Qed.

Lemma strip_split s :
  ∃ t1 t2, s = t1 ++ strip s ++ t2 ∧
           (∀ c, c ∈ t1 → is_space c = true) ∧ (∀ c, c ∈ t2 → is_space c = true).
Proof.
  destruct (lstrip_split s) as (t1 & Hs & Ht1).
  destruct (lstrip_split (reverse (lstrip s))) as (t2 & Hr & Ht2).
  exists t1, (reverse t2). split; [|split; [done|]].
  - unfold strip, rstrip. rewrite <-reverse_app, <-Hr, reverse_involutive. done.
  - intros c Hc. apply Ht2. by apply elem_of_reverse.
Qed.

Lemma parse_codes_strip text : parse_codes (strip text) = parse_codes text.
Proof.
  rewrite !parse_codes_words.
  destruct (strip_split text) as (t1 & t2 & Hs & H1 & H2).
  rewrite Hs at 2.
  rewrite words_separators by (intros; by apply is_space_separator, H1).
  by rewrite words_separators_end by (intros; by apply is_space_separator, H2).
Qed.

(** X11: white space around the text does not change the codes read from
    it, nor the batch: the caller's [strip()] of the input before
    [validate_credit_codes] changes no result. *)
Theorem strip_changes_no_result (U : Unicode) text :
  parse_codes (strip text) = parse_codes text
  ∧ validate_credit_codes U (strip text) = validate_credit_codes U text.
Proof.
  split; [apply parse_codes_strip|].
  unfold validate_credit_codes. by rewrite parse_codes_strip.
Qed.

Lemma pieces_fmap (f : Z → Z) s :
  (∀ c, is_separator c = false → f c = c) →
  (∀ c, is_separator c = true → is_separator (f c) = true) →
  pieces (f <$> s) = pieces s.
Proof.
  intros Hid Hsep. induction s as [|x s IH]; [done|].
  rewrite fmap_cons. simpl. rewrite IH. destruct (is_separator x) eqn:Hx.
  - by rewrite Hsep.
  - by rewrite Hid, Hx.
Qed.

(** X12: which separators stand between the codes does not matter:
    replacing separators by other separators (a comma by a line feed, a
    blank by a full-width comma) and leaving the other characters as they
    are changes neither the codes read nor the batch. *)
Theorem separators_are_interchangeable (U : Unicode) (f : Z → Z) text :
  (∀ c, is_separator c = false → f c = c) →
  (∀ c, is_separator c = true → is_separator (f c) = true) →
  parse_codes (f <$> text) = parse_codes text
  ∧ validate_credit_codes U (f <$> text) = validate_credit_codes U text.
Proof.
  intros Hid Hsep.
  assert (parse_codes (f <$> text) = parse_codes text) as E.
  { rewrite !parse_codes_words. unfold words. by rewrite pieces_fmap. }
  split; [done|]. unfold validate_credit_codes. by rewrite E.
Qed.

(** X13: the batch of two texts with a separator between them is the two
    batches one after the other: its valid list and its invalid list are
    those of the first text followed by those of the second, and it
    carries the error exactly when both do. *)
Theorem batch_of_two_texts (U : Unicode) a d b :
  is_separator d = true →
  ∃ ra rb rab,
    validate_credit_codes U a = Some ra ∧
    validate_credit_codes U b = Some rb ∧
    validate_credit_codes U (a ++ d :: b) = Some rab ∧
    valid rab = valid ra ++ valid rb ∧
    invalid rab = invalid ra ++ invalid rb ∧
    (error rab = Some NoCodesFound ↔
     error ra = Some NoCodesFound ∧ error rb = Some NoCodesFound).
Proof.
  intros Hd. do 3 eexists.
  split; [apply validate_credit_codes_result|].
  split; [apply validate_credit_codes_result|].
  split; [apply validate_credit_codes_result|].
  rewrite !parse_codes_words, words_app by done.
  destruct (words a) as [|wa la], (words b) as [|wb lb]; simpl;
    rewrite ?app_nil_r, ?app_comm_cons, ?filter_app;
    (split; [done|]); (split; [done|]); split; try done; by intros [? ?].
Qed.

Lemma join_then_parse_witness :
  (∀ items,
     (∀ w, w ∈ items → w ≠ [] ∧ ∀ c, c ∈ w → is_separator c = false) →
     parse_codes (join (str ", ") items) = items)
  ∧ ∀ text, parse_codes (join (str ", ") (parse_codes text)) = parse_codes text.
Proof.
  apply (join_then_parse (str ", ")).
  - discriminate.
  - intros c Hc. vm_compute in Hc.
    apply elem_of_cons in Hc as [->|Hc]; [reflexivity|].
    apply list_elem_of_singleton in Hc as ->. reflexivity.
Defined.

Lemma separators_are_interchangeable_witness :
  parse_codes ((λ c, if c =? 44 then 10 else c) <$> str "A,B") = parse_codes (str "A,B")
  ∧ validate_credit_codes ascii_db ((λ c, if c =? 44 then 10 else c) <$> str "A,B")
    = validate_credit_codes ascii_db (str "A,B").
Proof.
  apply (separators_are_interchangeable ascii_db (λ c, if c =? 44 then 10 else c)
           (str "A,B")).
  - intros c Hc. destruct (Z.eqb_spec c 44) as [->|]; [discriminate Hc|reflexivity].
  - intros c Hc. destruct (Z.eqb_spec c 44); [reflexivity|exact Hc].
Defined.

Lemma batch_of_two_texts_witness :
  ∃ ra rb rab,
    validate_credit_codes ascii_db (str "911101087802323985") = Some ra ∧
    validate_credit_codes ascii_db (str "x") = Some rb ∧
    validate_credit_codes ascii_db (str "911101087802323985" ++ ord "," :: str "x")
    = Some rab ∧
    valid rab = valid ra ++ valid rb ∧
    invalid rab = invalid ra ++ invalid rb ∧
    (error rab = Some NoCodesFound ↔
     error ra = Some NoCodesFound ∧ error rb = Some NoCodesFound).
Proof.
  apply (batch_of_two_texts ascii_db (str "911101087802323985") (ord ",") (str "x")).
  reflexivity.
Defined.

(** * Further properties of the window *)

Lemma lstrip_nil_iff s : lstrip s = [] ↔ ∀ c, c ∈ s → is_space c = true.
Proof.
  induction s as [|x s IH]; simpl.
  - split; [|done]. intros _ c Hc. by apply elem_of_nil in Hc.
  - destruct (is_space x) eqn:Hx.
    + rewrite IH. split.
      * intros H c [->|Hc]%elem_of_cons; [done|by apply H].
      * intros H c Hc. apply H. by right.
    + split; [done|]. intros H. rewrite H in Hx by by left. done.
Qed.

Lemma strip_nil_iff s : strip s = [] ↔ ∀ c, c ∈ s → is_space c = true.
Proof.
  split.
  - intros H. destruct (strip_split s) as (t1 & t2 & Hs & H1 & H2).
    rewrite H in Hs. rewrite Hs. intros c [Hc|Hc]%elem_of_app; [by apply H1|by apply H2].
  - intros H. unfold strip. by rewrite (proj2 (lstrip_nil_iff s) H).
Qed.

(** The codes of what [validate_codes] reads from the input widget. *)
Lemma parse_codes_input text :
  parse_codes (strip (text ++ [10])) = parse_codes text.
Proof.
  rewrite parse_codes_strip, !parse_codes_words.
  apply words_separators_end. by intros c ->%list_elem_of_singleton.
Qed.

Lemma strip_input_nil_iff text :
  strip (text ++ [10]) = [] ↔ ∀ c, c ∈ text → is_space c = true.
Proof.
  rewrite strip_nil_iff. split.
  - intros H c Hc. apply H. apply elem_of_app. by left.
  - intros H c [Hc| ->%list_elem_of_singleton]%elem_of_app; [by apply H|done].
Qed.

Lemma lookup_after_two {A} (x y : A) l n m :
  m = S (S n) → (x :: y :: l) !! m = l !! n.
Proof. by intros ->. Qed.

Section WindowProperties.
Variable U : Unicode.

(** What the loop of [display_results] writes. *)
Lemma display_entries_content i codes w :
  editable w = true →
  ∃ w' entries,
    display_entries U i codes w = Some w' ∧ editable w' = true ∧
    content w' = content w ++ entries ∧
    length entries = (2 * length codes)%nat ∧
    ∀ k code, codes !! k = Some code →
      ∃ r, get_error_reason U code = Some r ∧
           entries !! (2 * k)%nat = Some (CodeLine (i + k) code) ∧
           entries !! (2 * k + 1)%nat = Some (ReasonLine r).
Proof.
  revert i w. induction codes as [|code codes IH]; intros i w Hw; simpl.
  - exists w, []. rewrite app_nil_r. repeat split; try done.
  - destruct (get_error_reason_total U code) as [r Hr]. rewrite Hr. simpl.
    unfold text_insert_end at 2. rewrite Hw.
    unfold text_insert_end at 1. simpl.
    destruct (IH (S i) {| content := (content w ++ [CodeLine i code]) ++ [ReasonLine r];
                          editable := true |} eq_refl)
      as (w' & entries & Hd & He & Hc & Hl & Hk).
    exists w', (CodeLine i code :: ReasonLine r :: entries).
    split; [done|]. split; [done|].
    split. { rewrite Hc. simpl. by rewrite <-!(assoc_L (++)). }
    split. { simpl. lia. }
    intros [|k] c Hck.
    + injection Hck as <-. exists r. replace (i + 0)%nat with i by lia. done.
    + destruct (Hk k c Hck) as (r' & Hr' & H1 & H2). exists r'. split; [done|].
      rewrite (lookup_after_two _ _ _ (2 * k)) by lia.
      rewrite (lookup_after_two _ _ _ (2 * k + 1)) by lia.
      replace (i + S k)%nat with (S i + k)%nat by lia. done.
Qed.

(** What [display_results] leaves in the result pane. *)
Lemma display_results_content results a :
  ∃ a' entries,
    display_results U results a = Some a' ∧
    a' = with_output {| content := content (output_text a'); editable := false |} a ∧
    (invalid results = [] → content (output_text a') = [AllValidLine]) ∧
    (invalid results ≠ [] →
       content (output_text a') = InvalidHeader :: Rule :: entries) ∧
    length entries = (2 * length (invalid results))%nat ∧
    ∀ k code, invalid results !! k = Some code →
      ∃ r, get_error_reason U code = Some r ∧
           entries !! (2 * k)%nat = Some (CodeLine (S k) code) ∧
           entries !! (2 * k + 1)%nat = Some (ReasonLine r).
Proof.
  unfold display_results, text_config, text_delete_all. simpl.
  case_bool_decide as Hinv.
  - unfold text_insert_end. simpl.
    destruct (display_entries_content 1 (invalid results)
                {| content := [InvalidHeader; Rule]; editable := true |} eq_refl)
      as (w' & entries & Hd & He & Hc & Hl & Hk).
    rewrite Hd. simpl. eexists _, entries. split; [done|]. simpl.
    split; [done|]. split; [done|]. split; [by rewrite Hc|]. split; [done|]. done.
  - simpl. eexists _, []. split; [done|]. simpl.
    assert (invalid results = []) as -> by (destruct (invalid results); [done|]; by destruct Hinv).
    repeat split; try done.
Qed.

(** X14: [validate_codes] and [clear_all] keep the window in order:
    [validate_codes] raises no exception and leaves the input text as it
    is, the validate button enabled if it was, and, like [clear_all], the
    result pane read-only if it was; it shows at most one message box. *)
Theorem window_stays_in_order a :
  (∃ a', validate_codes U a = Some a' ∧
     input_text a' = input_text a ∧
     (validate_btn a = true → validate_btn a' = true) ∧
     (editable (output_text a) = false → editable (output_text a') = false) ∧
     (dialogs a' = dialogs a ∨ ∃ d, dialogs a' = dialogs a ++ [d]))
  ∧ editable (output_text (clear_all a)) = false
  ∧ content (output_text (clear_all a)) = []
  ∧ input_text (clear_all a) = []
  ∧ validate_btn (clear_all a) = validate_btn a
  ∧ dialogs (clear_all a) = dialogs a.
Proof.
  split; [|done].
  unfold validate_codes. case_bool_decide as Hblank.
  { eexists. split; [done|]. simpl. split; [done|]. split; [done|]. split; [done|].
    right. by eexists. }
  rewrite validate_credit_codes_result. simpl.
  case_bool_decide as Hnil; simpl.
  { eexists. split; [done|]. simpl. split; [done|]. split; [done|]. split; [done|].
    right. by eexists. }
  set (r := {| total := _; valid := _; invalid := _; error := _ |}).
  set (a0 := with_stats _ _).
  destruct (display_results_content r a0) as (a' & entries & Hd & Ha' & _).
  rewrite Hd. simpl.
  destruct (length (filter _ _) =? 0)%nat; eexists; (split; [done|]);
    rewrite Ha'; simpl; (split; [done|]); (split; [done|]); (split; [done|]).
  - right. by eexists.
  - by left.
Qed.

(** X15: [validate_codes] answers with the warning alone, and changes
    nothing else, exactly when the input holds white space only. *)
Theorem blank_input_only_warns a :
  validate_codes U a = Some (messagebox Warning a) ↔
  ∀ c, c ∈ input_text a → is_space c = true.
Proof.
  rewrite <-strip_input_nil_iff. unfold validate_codes.
  case_bool_decide as Hblank; [done|]. split; [|done].
  rewrite validate_credit_codes_result. simpl.
  case_bool_decide as Hnil; simpl.
  { intros H. apply (f_equal (fmap dialogs)) in H. simpl in H.
    injection H as H. by apply app_inv_head in H. }
  set (r := {| total := _; valid := _; invalid := _; error := _ |}).
  set (a0 := with_stats _ _).
  destruct (display_results_content r a0) as (a' & entries & Hd & Ha' & _).
  rewrite Hd. simpl.
  assert (dialogs a' = dialogs a) as Hdia by (by rewrite Ha').
  destruct (length (filter _ _) =? 0)%nat; intros H;
    apply (f_equal (fmap dialogs)) in H; simpl in H; injection H as H;
    rewrite Hdia in H.
  - by apply app_inv_head in H.
  - rewrite <-(app_nil_r (dialogs a)) in H at 1. by apply app_inv_head in H.
Qed.

(** X16: [validate_codes] shows the error box of the empty batch exactly
    when the input is not blank and holds separators only (commas among
    blanks); it then sets the status to failed and leaves the result pane
    and the statistics as they were, whatever they showed. *)
Theorem separators_only_input_fails a :
  ∃ a', validate_codes U a = Some a' ∧
    (dialogs a' = dialogs a ++ [Error NoCodesFound] ↔
     (∃ c, c ∈ input_text a ∧ is_space c = false) ∧
     (∀ c, c ∈ input_text a → is_separator c = true)) ∧
    (dialogs a' = dialogs a ++ [Error NoCodesFound] →
     status_bar a' = ValidationFailed ∧ output_text a' = output_text a ∧
     stats_label a' = stats_label a ∧ validate_btn a' = true).
Proof.
  assert (strip (input_text a ++ [10]) ≠ [] →
          ∃ c, c ∈ input_text a ∧ is_space c = false) as Hnonblank.
  { rewrite strip_input_nil_iff. intros H.
    destruct (decide (Exists (λ c, is_space c = false) (input_text a))) as [He|He].
    - apply Exists_exists in He as (c & Hc & Hs). by exists c.
    - exfalso. apply H. intros c Hc. destruct (is_space c) eqn:E; [done|].
      exfalso. apply He. apply Exists_exists. by exists c. }
  assert (parse_codes (strip (input_text a ++ [10])) = [] ↔
          ∀ c, c ∈ input_text a → is_separator c = true) as Hsep.
  { by rewrite parse_codes_input, parse_codes_words, words_nil_iff. }
  unfold validate_codes. case_bool_decide as Hblank.
  { eexists. split; [done|]. simpl. split.
    - split; [intros H; by apply app_inv_head in H|].
      intros [(c & Hc & Hs) _].
      rewrite (proj1 (strip_input_nil_iff _) Hblank c Hc) in Hs. done.
    - intros H. by apply app_inv_head in H. }
  rewrite validate_credit_codes_result. simpl.
  case_bool_decide as Hnil; simpl.
  { eexists. split; [done|]. simpl. split; [|done].
    split; [|done]. intros _. split; [by apply Hnonblank|by apply Hsep]. }
  set (r := {| total := _; valid := _; invalid := _; error := _ |}).
  set (a0 := with_stats _ _).
  destruct (display_results_content r a0) as (a' & entries & Hd & Ha' & _).
  rewrite Hd. simpl.
  assert (dialogs a' = dialogs a) as Hdia by (by rewrite Ha').
  destruct (length (filter _ _) =? 0)%nat; eexists; (split; [done|]); simpl;
    rewrite Hdia.
  - split; [split; [intros H; by apply app_inv_head in H|]|].
    + intros [_ H]. by apply Hsep in H.
    + intros H. by apply app_inv_head in H.
  - split; [split|].
    + intros H. rewrite <-(app_nil_r (dialogs a)) in H at 1. by apply app_inv_head in H.
    + intros [_ H]. by apply Hsep in H.
    + intros H. rewrite <-(app_nil_r (dialogs a)) in H at 1. by apply app_inv_head in H.
Qed.

(** X17: when the input holds at least one code, [validate_codes] shows
    the counts, whose total is the number of codes and the sum of the two
    others, and rewrites the result pane: with no rejected code, the
    all-valid line, the all-valid status and its message box; otherwise
    the header and, for each rejected code in the order of the input, its
    number from 1 on, the code and the reason [get_error_reason] gives
    for it, with no message box. *)
Theorem codes_input_is_listed a :
  parse_codes (input_text a) ≠ [] →
  ∃ a' entries,
    validate_codes U a = Some a' ∧
    stats_label a'
    = Counts (length (parse_codes (input_text a)))
        (length (filter (accepted U) (parse_codes (input_text a))))
        (length (filter (λ code, ¬ accepted U code) (parse_codes (input_text a)))) ∧
    length (parse_codes (input_text a))
    = (length (filter (accepted U) (parse_codes (input_text a)))
       + length (filter (λ code, ¬ accepted U code) (parse_codes (input_text a))))%nat ∧
    editable (output_text a') = false ∧
    (filter (λ code, ¬ accepted U code) (parse_codes (input_text a)) = [] →
       content (output_text a') = [AllValidLine] ∧
       status_bar a' = DoneAllValid ∧
       dialogs a' = dialogs a ++ [InfoAllPassed]) ∧
    (filter (λ code, ¬ accepted U code) (parse_codes (input_text a)) ≠ [] →
       content (output_text a') = InvalidHeader :: Rule :: entries ∧
       status_bar a'
       = DoneInvalid (length (filter (λ code, ¬ accepted U code)
                                (parse_codes (input_text a)))) ∧
       dialogs a' = dialogs a) ∧
    length entries
    = (2 * length (filter (λ code, ¬ accepted U code) (parse_codes (input_text a))))%nat ∧
    ∀ k code,
      filter (λ code, ¬ accepted U code) (parse_codes (input_text a)) !! k = Some code →
      ∃ r, get_error_reason U code = Some r ∧
           entries !! (2 * k)%nat = Some (CodeLine (S k) code) ∧
           entries !! (2 * k + 1)%nat = Some (ReasonLine r).
Proof.
  intros Hcodes. unfold validate_codes.
  rewrite bool_decide_eq_false_2.
  2:{ intros H. apply Hcodes. rewrite <-parse_codes_input, H. done. }
  rewrite validate_credit_codes_result, parse_codes_input.
  rewrite bool_decide_eq_false_2 by done. simpl.
  set (codes := parse_codes (input_text a)) in *.
  set (r := {| total := _; valid := _; invalid := _; error := _ |}).
  set (a0 := with_stats _ _).
  destruct (display_results_content r a0)
    as (a' & entries & Hd & Ha' & Hall & Hlist & Hlen & Hk).
  rewrite Hd. simpl. simpl in Hall, Hlist, Hlen, Hk.
  assert (dialogs a' = dialogs a) as Hdia by (by rewrite Ha').
  assert (stats_label a'
          = Counts (length codes) (length (filter (accepted U) codes))
              (length (filter (λ code, ¬ accepted U code) codes))) as Hst
    by (by rewrite Ha').
  assert (editable (output_text a') = false) as Hed by (by rewrite Ha').
  destruct (Nat.eqb_spec (length (filter (λ code, ¬ accepted U code) codes)) 0)
    as [H0|H0]; eexists _, entries; (split; [done|]); simpl.
  - apply nil_length_inv in H0.
    split; [done|]. split; [apply filter_lengths|]. split; [done|].
    split; [intros _; split; [by apply Hall|]; split; [done|]; by rewrite Hdia|].
    split; [intros H; by destruct H|]. split; [done|]. done.
  - assert (filter (λ code, ¬ accepted U code) codes ≠ []) as Hne
      by (intros H; rewrite H in H0; by apply H0).
    split; [done|]. split; [apply filter_lengths|]. split; [done|].
    split; [intros H; by destruct Hne|].
    split; [intros _; split; [by apply Hlist|]; done|]. split; [done|]. done.
Qed.

End WindowProperties.

Lemma codes_input_is_listed_witness :
  ∃ a' entries,
    validate_codes ascii_db one_code_window = Some a' ∧
    stats_label a'
    = Counts (length (parse_codes (input_text one_code_window)))
        (length (filter (accepted ascii_db) (parse_codes (input_text one_code_window))))
        (length (filter (λ code, ¬ accepted ascii_db code) (parse_codes (input_text one_code_window)))) ∧
    length (parse_codes (input_text one_code_window))
    = (length (filter (accepted ascii_db) (parse_codes (input_text one_code_window)))
       + length (filter (λ code, ¬ accepted ascii_db code) (parse_codes (input_text one_code_window))))%nat ∧
    editable (output_text a') = false ∧
    (filter (λ code, ¬ accepted ascii_db code) (parse_codes (input_text one_code_window)) = [] →
       content (output_text a') = [AllValidLine] ∧
       status_bar a' = DoneAllValid ∧
       dialogs a' = dialogs one_code_window ++ [InfoAllPassed]) ∧
    (filter (λ code, ¬ accepted ascii_db code) (parse_codes (input_text one_code_window)) ≠ [] →
       content (output_text a') = InvalidHeader :: Rule :: entries ∧
       status_bar a'
       = DoneInvalid (length (filter (λ code, ¬ accepted ascii_db code)
                                (parse_codes (input_text one_code_window)))) ∧
       dialogs a' = dialogs one_code_window) ∧
    length entries
    = (2 * length (filter (λ code, ¬ accepted ascii_db code) (parse_codes (input_text one_code_window))))%nat ∧
    ∀ k code,
      filter (λ code, ¬ accepted ascii_db code)
        (parse_codes (input_text one_code_window)) !! k = Some code →
      ∃ r, get_error_reason ascii_db code = Some r ∧
           entries !! (2 * k)%nat = Some (CodeLine (S k) code) ∧
           entries !! (2 * k + 1)%nat = Some (ReasonLine r).
Proof.
  apply (codes_input_is_listed ascii_db one_code_window).
  vm_compute. discriminate.
Defined.

Example validate_codes_on_one_code :
  validate_codes ascii_db one_code_window
  = Some {| input_text := str "x";
            output_text :=
              {| content := [InvalidHeader; Rule; CodeLine 1 (str "x");
                             ReasonLine WrongLength];
                 editable := false |};
            stats_label := Counts 1 0 1;
            status_bar := DoneInvalid 1;
            validate_btn := true;
            dialogs := [] |}.
Proof. vm_compute. reflexivity. Qed.

Example validate_codes_on_commas :
  validate_codes ascii_db (with_input (str ", ,") setup_ui)
  = Some {| input_text := str ", ,";
            output_text := {| content := []; editable := false |};
            stats_label := Ready;
            status_bar := ValidationFailed;
            validate_btn := true;
            dialogs := [Error NoCodesFound] |}.
Proof. vm_compute. reflexivity. Qed.
